(** * form-parser: flattening Go structs into form key/value pairs

    A shallow embedding of [parser.go] (package [formparser]) and the
    properties of its recursive encoder.

    Conventions of the embedding.
    - A [reflect.Value] is a pair: its read-only flag bits ([flag]) and the
      data it views (a [value]): kind, Go type as far as the parser's type
      assertions look at it, elements, fields, map entries, pointer target.
      The functions of the parser take the two as two arguments.  Values are
      finite trees, so every loop of the parser is a structural recursion.
    - [Field], [Elem], [Index], [MapKeys] and [MapIndex] derive the flag of
      the value they return as package [reflect] does; [Interface] panics on
      a value read through an unexported field.
    - A Go [panic] is the outcome [Panicked]; a returned [error] is the second
      component of the returned pair, as in the source.
    - A floating-point or complex number is given by the text the [%v] verb
      prints for it. *)

From Stdlib Require Import ZArith Ascii String.
From stdpp Require Import base tactics option list strings pretty gmap.

Local Open Scope string_scope.
Local Open Scope list_scope.

(** ** reflect.Kind *)

Inductive Kind : Type :=
| Invalid | Bool
| Int | Int8 | Int16 | Int32 | Int64
| Uint | Uint8 | Uint16 | Uint32 | Uint64 | Uintptr
| Float32 | Float64 | Complex64 | Complex128
| Array | Chan | Func | Interface | Map | Ptr | Slice | String | Struct
| UnsafePointer.

#[global] Instance Kind_eq_dec : EqDecision Kind.
Proof. solve_decision. Defined.

Inductive IntKind := KInt | KInt8 | KInt16 | KInt32 | KInt64.
Inductive UintKind := KUint | KUint8 | KUint16 | KUint32 | KUint64.
Inductive FloatKind := KFloat32 | KFloat64.
Inductive ComplexKind := KComplex64 | KComplex128.
(** Kinds the parser never looks inside. *)
Inductive OpaqueKind := KUintptr | KChan | KFunc | KInterface | KUnsafePointer.

(** ** Struct fields and tags *)

(** A struct tag in its conventional form, [key:"value" key:"value" ...], in
    the order written. *)
Definition StructTag := list (string * string).

(** [reflect.StructField], as far as the parser and [Value.Field] read it.
    [PkgPath] is empty for an exported field and names the package for an
    unexported one; [Anonymous] marks an embedded field. *)
Record StructField := {
  Name : string;
  PkgPath : string;
  Tag : StructTag;
  Anonymous : bool
}.

(** [StructField.IsExported] *)
Definition IsExported (f : StructField) : bool := bool_decide (PkgPath f = "").

(** [StructTag.Get]: the value of the first pair under [key], [""] when there
    is none. *)
Fixpoint Get (t : StructTag) (key : string) : string :=
  match t with
  | [] => ""
  | (k, v) :: t' => if decide (k = key) then v else Get t' key
  end.

(** ** Types of sequences

    [encodeSlice] asserts the dynamic type of a sequence against [[]byte] and
    [[]string].  A sequence therefore carries what these assertions look at:
    whether its type is a defined (named) type, and its element type as far as
    it is the predeclared [uint8], the predeclared [string], or anything else
    (defined types over them included). *)

Inductive ElemType := ElemUint8 | ElemString | ElemOther.

Record SeqType := { defined : bool; elem : ElemType }.

(** ** Values *)

(** The content of a value of a scalar kind. *)
Inductive scalar : Type :=
| SBool (b : bool)
| SInt (k : IntKind) (z : Z)
| SUint (k : UintKind) (z : Z)
| SFloat (k : FloatKind) (text : string)          (* by its [%v] rendering *)
| SComplex (k : ComplexKind) (text : string)      (* by its [%v] rendering *)
| SString (s : string).

#[local] Set Warnings "-register-all".

(** A scalar carries its Go type as far as the encoders assert it: [named]
    is [false] for the predeclared type of its kind ([int], [string], ...)
    and [true] for a defined type over it ([type Status int]). *)
Inductive value : Type :=
| VInvalid                                        (* the zero reflect.Value *)
| VScalar (named : bool) (s : scalar)
| VSlice (t : SeqType) (xs : option (list value)) (* [None]: the nil slice *)
| VArray (t : SeqType) (xs : list value)
| VStruct (fs : list (StructField * value))       (* declaration order *)
| VMap (es : list (value * value))                (* in [MapKeys] order *)
| VPtr (e : value)                                (* [e = VInvalid]: nil *)
| VOpaque (k : OpaqueKind).

(** The scalars of the predeclared types. *)
Abbreviation VBool b := (VScalar false (SBool b)).
Abbreviation VInt k z := (VScalar false (SInt k z)).
Abbreviation VUint k z := (VScalar false (SUint k z)).
Abbreviation VFloat k text := (VScalar false (SFloat k text)).
Abbreviation VComplex k text := (VScalar false (SComplex k text)).
Abbreviation VString s := (VScalar false (SString s)).

Definition scalarKind (s : scalar) : Kind :=
  match s with
  | SBool _ => Bool
  | SInt k _ =>
      match k with
      | KInt => Int | KInt8 => Int8 | KInt16 => Int16
      | KInt32 => Int32 | KInt64 => Int64
      end
  | SUint k _ =>
      match k with
      | KUint => Uint | KUint8 => Uint8 | KUint16 => Uint16
      | KUint32 => Uint32 | KUint64 => Uint64
      end
  | SFloat k _ => match k with KFloat32 => Float32 | KFloat64 => Float64 end
  | SComplex k _ =>
      match k with KComplex64 => Complex64 | KComplex128 => Complex128 end
  | SString _ => String
  end.

Definition kind (v : value) : Kind :=
  match v with
  | VInvalid => Invalid
  | VScalar _ s => scalarKind s
  | VSlice _ _ => Slice
  | VArray _ _ => Array
  | VStruct _ => Struct
  | VMap _ => Map
  | VPtr _ => Ptr
  | VOpaque k =>
      match k with
      | KUintptr => Uintptr | KChan => Chan | KFunc => Func
      | KInterface => Interface | KUnsafePointer => UnsafePointer
      end
  end.

(** [for v.Kind() == reflect.Ptr { v = v.Elem() }].  [Elem] of a nil pointer
    is the zero Value, whose kind is [Invalid]. *)
Fixpoint elimPtr (v : value) : value :=
  match v with
  | VPtr e => elimPtr e
  | _ => v
  end.

(** [v.Len()] and [v.Index(i)] of a slice read its elements; the nil slice
    has none. *)
Definition sliceElems (xs : option (list value)) : list value :=
  match xs with
  | Some l => l
  | None => []
  end.

(** ** The read-only flag of a reflect.Value

    The two bits [flagStickyRO] and [flagEmbedRO]; together they are
    [flagRO]. *)

Record flag := mkFlag { flagStickyRO : bool; flagEmbedRO : bool }.

(** The flag of [reflect.ValueOf(x)]. *)
Definition noFlag : flag := mkFlag false false.

(** [fl & flagRO != 0]: the value was read through an unexported field. *)
Definition flagRO (fl : flag) : bool := flagStickyRO fl || flagEmbedRO fl.

(** [flag.ro()], the flag [Index], [MapKeys] and [MapIndex] hand on. *)
Definition ro (fl : flag) : flag :=
  if flagRO fl then mkFlag true false else mkFlag false false.

(** The flag of [v.Field(i)]: the sticky bit of [v] is inherited, the embed
    bit is cleared; an unexported field sets the embed bit when it is
    embedded and the sticky bit otherwise.  ([Elem] of a pointer keeps both
    bits.) *)
Definition fieldFlag (fl : flag) (f : StructField) : flag :=
  if IsExported f then mkFlag (flagStickyRO fl) false
  else if Anonymous f then mkFlag (flagStickyRO fl) true
       else mkFlag true false.

(** ** Outcomes *)

Definition error := string.

Inductive panic : Type :=
| UnknownType (k : Kind)                  (* "Unknown type %v" *)
| ParseFailed (tagK : string) (e : error) (* "Parse value for tagK(%s) failed, %v" *)
| InterfaceConversion                     (* a failed [x.(T)] *)
| InterfaceRO                             (* [Interface] on a value obtained
                                             from an unexported field *)
| ValueError (method : string) (k : Kind) (* reflect: call of method on k Value *)
| MissingValue (what : string).           (* "formparser: Missing `%s` value" *)

(** A call either returns or panics. *)
Inductive exec (A : Type) : Type :=
| Done (a : A)
| Panicked (p : panic).
Arguments Done {A} a.
Arguments Panicked {A} p.

#[global] Instance exec_ret : MRet exec := @Done.
#[global] Instance exec_bind : MBind exec := λ A B f m,
  match m with
  | Done a => f a
  | Panicked p => Panicked p
  end.

(** [v.Interface()], that is [valueInterface(v, true)] *)
Definition valueInterface (fl : flag) (v : value) : exec value :=
  match v with
  | VInvalid => Panicked (ValueError "Interface" Invalid)
  | _ => if flagRO fl then Panicked InterfaceRO else Done v
  end.

Record KV := mkKV { K : string; V : string }.

#[global] Instance KV_eq_dec : EqDecision KV.
Proof. solve_decision. Defined.

Definition kindEncoder := flag → value → string → exec (list KV).

(** ** Library functions the parser calls *)

(** [strconv.Itoa], [strconv.FormatInt(_, 10)], [strconv.FormatUint(_, 10)]. *)
Definition FormatInt (z : Z) : string := pretty z.

(** [fmt.Sprintf("%d", i)] for a loop index. *)
Definition Itoa (i : nat) : string := pretty i.

Definition FormatBool (b : bool) : string := if b then "true" else "false".

(** [strings.Split(s, sep)] for a separator of one character. *)
Fixpoint Split (s : string) (sep : ascii) : list string :=
  match s with
  | "" => [""]
  | String.String c s' =>
      if decide (c = sep) then "" :: Split s' sep
      else match Split s' sep with
           | h :: t => String.String c h :: t
           | [] => [String.String c ""]
           end
  end.

(** [strings.Join(elems, sep)]. *)
Fixpoint Join (elems : list string) (sep : string) : string :=
  match elems with
  | [] => ""
  | [x] => x
  | x :: rest => x +:+ sep +:+ Join rest sep
  end.

(** [base64.StdEncoding]: the standard alphabet, padded with ['=']. *)
Module base64.
Definition encodeStd : string :=
  "ABCDEFGHIJKLMNOPQRSTUVWXYZabcdefghijklmnopqrstuvwxyz0123456789+/".

Definition padChar : ascii := "="%char.

(** [enc.encode[i]] *)
Definition encodeAt (i : Z) : ascii :=
  match String.get (Z.to_nat i) encodeStd with
  | Some c => c
  | None => padChar
  end.

Definition sextet (val : Z) (shift : Z) : ascii :=
  encodeAt (Z.land (Z.shiftr val shift) 63).

Fixpoint EncodeToString (src : list Z) : string :=
  match src with
  | [] => ""
  | [b0] =>
      let val := Z.shiftl b0 16 in
      String.String (sextet val 18) (String.String (sextet val 12)
        (String.String padChar (String.String padChar "")))
  | [b0; b1] =>
      let val := Z.lor (Z.shiftl b0 16) (Z.shiftl b1 8) in
      String.String (sextet val 18) (String.String (sextet val 12)
        (String.String (sextet val 6) (String.String padChar "")))
  | b0 :: b1 :: b2 :: rest =>
      let val := Z.lor (Z.lor (Z.shiftl b0 16) (Z.shiftl b1 8)) b2 in
      String.String (sextet val 18) (String.String (sextet val 12)
        (String.String (sextet val 6) (String.String (sextet val 0)
          (EncodeToString rest))))
  end.
End base64.

(** ** Type assertions of [encodeSlice]

    [x.([]byte)] holds for a slice whose type is [[]uint8] itself: not an
    array, not a defined type, elements of the predeclared [uint8].  It
    yields the raw bytes. *)
Definition byteOf (v : value) : option Z :=
  match v with
  | VUint KUint8 z => Some z
  | _ => None
  end.

Definition stringOf (v : value) : option string :=
  match v with
  | VString s => Some s
  | _ => None
  end.

Definition assertBytes (v : value) : option (list Z) :=
  match v with
  | VSlice t xs =>
      if defined t then None
      else match elem t with
           | ElemUint8 => mapM byteOf (sliceElems xs)
           | _ => None
           end
  | _ => None
  end.

(** [x.([]string)] *)
Definition assertStrings (v : value) : option (list string) :=
  match v with
  | VSlice t xs =>
      if defined t then None
      else match elem t with
           | ElemString => mapM stringOf (sliceElems xs)
           | _ => None
           end
  | _ => None
  end.

(** ** The parser *)

(** The [encoders] field is filled by [init] for every parser that [New]
    returns; it is the table [encoders] below. *)
Record FormParser := { tag : string; ignoreFlag : string }.

Definition New (tag ignoreFlag : string) : exec FormParser :=
  if decide (String.length tag ≤ 0)%nat then Panicked (MissingValue "tag")
  else if decide (String.length ignoreFlag ≤ 0)%nat
       then Panicked (MissingValue "ignoreFlag")
       else Done {| tag := tag; ignoreFlag := ignoreFlag |}.

Definition Default : exec FormParser := New "zwf" "-".

Definition fieldTag (p : FormParser) (f : StructField) : string * bool :=
  let t := Get (Tag f) (tag p) in
  if decide (t = ignoreFlag p) then (t, true)
  else if decide (t = "") then (Name f, false)
  else (t, false).

(** *** Scalar encoders

    Each reads [v.Interface()] and asserts the predeclared type of its
    kind. *)

Definition encodeString (fl : flag) (v : value) (tagK : string) : exec (list KV) :=
  x ← valueInterface fl v;
  match x with
  | VString s => Done [mkKV tagK s]
  | _ => Panicked InterfaceConversion
  end.

Definition encodeBool (fl : flag) (v : value) (tagK : string) : exec (list KV) :=
  x ← valueInterface fl v;
  match x with
  | VBool b => Done [mkKV tagK (FormatBool b)]
  | _ => Panicked InterfaceConversion
  end.

Definition encodeInt (fl : flag) (v : value) (tagK : string) : exec (list KV) :=
  x ← valueInterface fl v;
  match x with
  | VInt KInt z => Done [mkKV tagK (FormatInt z)]
  | _ => Panicked InterfaceConversion
  end.

Definition encodeInt8 (fl : flag) (v : value) (tagK : string) : exec (list KV) :=
  x ← valueInterface fl v;
  match x with
  | VInt KInt8 z => Done [mkKV tagK (FormatInt z)]
  | _ => Panicked InterfaceConversion
  end.

Definition encodeInt16 (fl : flag) (v : value) (tagK : string) : exec (list KV) :=
  x ← valueInterface fl v;
  match x with
  | VInt KInt16 z => Done [mkKV tagK (FormatInt z)]
  | _ => Panicked InterfaceConversion
  end.

Definition encodeInt32 (fl : flag) (v : value) (tagK : string) : exec (list KV) :=
  x ← valueInterface fl v;
  match x with
  | VInt KInt32 z => Done [mkKV tagK (FormatInt z)]
  | _ => Panicked InterfaceConversion
  end.

Definition encodeInt64 (fl : flag) (v : value) (tagK : string) : exec (list KV) :=
  x ← valueInterface fl v;
  match x with
  | VInt KInt64 z => Done [mkKV tagK (FormatInt z)]
  | _ => Panicked InterfaceConversion
  end.

Definition encodeUint (fl : flag) (v : value) (tagK : string) : exec (list KV) :=
  x ← valueInterface fl v;
  match x with
  | VUint KUint z => Done [mkKV tagK (FormatInt z)]
  | _ => Panicked InterfaceConversion
  end.

Definition encodeUint8 (fl : flag) (v : value) (tagK : string) : exec (list KV) :=
  x ← valueInterface fl v;
  match x with
  | VUint KUint8 z => Done [mkKV tagK (FormatInt z)]
  | _ => Panicked InterfaceConversion
  end.

Definition encodeUint16 (fl : flag) (v : value) (tagK : string) : exec (list KV) :=
  x ← valueInterface fl v;
  match x with
  | VUint KUint16 z => Done [mkKV tagK (FormatInt z)]
  | _ => Panicked InterfaceConversion
  end.

Definition encodeUint32 (fl : flag) (v : value) (tagK : string) : exec (list KV) :=
  x ← valueInterface fl v;
  match x with
  | VUint KUint32 z => Done [mkKV tagK (FormatInt z)]
  | _ => Panicked InterfaceConversion
  end.

Definition encodeUint64 (fl : flag) (v : value) (tagK : string) : exec (list KV) :=
  x ← valueInterface fl v;
  match x with
  | VUint KUint64 z => Done [mkKV tagK (FormatInt z)]
  | _ => Panicked InterfaceConversion
  end.

Definition encodeFloat32 (fl : flag) (v : value) (tagK : string) : exec (list KV) :=
  x ← valueInterface fl v;
  match x with
  | VFloat KFloat32 text => Done [mkKV tagK text]
  | _ => Panicked InterfaceConversion
  end.

Definition encodeFloat64 (fl : flag) (v : value) (tagK : string) : exec (list KV) :=
  x ← valueInterface fl v;
  match x with
  | VFloat KFloat64 text => Done [mkKV tagK text]
  | _ => Panicked InterfaceConversion
  end.

Definition encodeComplex64 (fl : flag) (v : value) (tagK : string) : exec (list KV) :=
  x ← valueInterface fl v;
  match x with
  | VComplex KComplex64 text => Done [mkKV tagK text]
  | _ => Panicked InterfaceConversion
  end.

Definition encodeComplex128 (fl : flag) (v : value) (tagK : string) : exec (list KV) :=
  x ← valueInterface fl v;
  match x with
  | VComplex KComplex128 text => Done [mkKV tagK text]
  | _ => Panicked InterfaceConversion
  end.

Definition encodeInvalid (fl : flag) (v : value) (tagK : string) : exec (list KV) :=
  Done [].

(** *** Composite encoders

    [parse], [encodeSlice], [encodeStruct] and [encodeMap] call [encode],
    which dispatches back to them through the encoder table.  Their bodies
    are written over the recursive call [encode] of the section; the knot is
    tied by the fixpoint that follows. *)

Definition InvalidRoot : error :=
  "Param obj is invalid, struct or non-nil *struct is needed".

Section Bodies.
Variable p : FormParser.
Variable encode : kindEncoder.

(** The loop of [parse] over the fields [i], [i+1], ... of [rv]; [fl] is the
    flag of [rv]. *)
Fixpoint parseFields (fl : flag) (kvs : list KV)
    (fs : list (StructField * value)) : exec (list KV * option error) :=
  match fs with
  | [] => Done (kvs, None)
  | (f, field) :: fs' =>
      let ffl := fieldFlag fl f in
      let field := elimPtr field in
      if decide (kind field = Invalid) then parseFields fl kvs fs'
      else
        let '(tagK, drop) := fieldTag p f in
        if drop then parseFields fl kvs fs'
        else
          r ← encode ffl field tagK;
          parseFields fl (kvs ++ r) fs'
  end.

Fixpoint parse_body (fl : flag) (rv : value) : exec (list KV * option error) :=
  match rv with
  | VStruct fs => parseFields fl [] fs
  | VPtr e => parse_body fl e
  | _ => Done ([], Some InvalidRoot)
  end.

(** [for i, kv := range kvs { ...; kvs[i] = kv }] *)
Definition prefixKeys (tagK : string) (kvs : list KV) : list KV :=
  foldl (λ kvs i,
           match kvs !! i with
           | Some kv =>
               let kv :=
                 if decide (tagK ≠ "...")
                 then mkKV (tagK +:+ "." +:+ K kv) (V kv)
                 else kv in
               <[i := kv]> kvs
           | None => kvs
           end)
        kvs (seq 0 (length kvs)).

Definition encodeStruct_body (fl : flag) (v : value) (tagK : string)
  : exec (list KV) :=
  r ← parse_body fl v;
  match r with
  | (_, Some err) => Panicked (ParseFailed tagK err)
  | (kvs, None) => Done (prefixKeys tagK kvs)
  end.

(** [for i := 0; i < v.Len(); i++ { rt = append(rt, p.encode(v.Index(i), ...)...) }];
    [fl] is the flag of [v], and [ro fl] that of [v.Index(i)]. *)
Fixpoint encodeElems (fl : flag) (tagK : string) (rt : list KV) (i : nat)
    (xs : list value) : exec (list KV) :=
  match xs with
  | [] => Done rt
  | x :: xs' =>
      r ← encode (ro fl) x (tagK +:+ "." +:+ Itoa i);
      encodeElems fl tagK (rt ++ r) (S i) xs'
  end.

(** [len(tagList) > 1 && tagList[1] == "join"] *)
Definition joinTag (tagList : list string) : bool :=
  bool_decide (1 < length tagList) && bool_decide (tagList !! 1 = Some "join").

(** The third case of [encodeSlice]: one call of [encode] per element. *)
Definition encodeIndexed (fl : flag) (v : value) (tagK : string)
  : exec (list KV) :=
  match v with
  | VSlice _ (Some xs) | VArray _ xs => encodeElems fl tagK [] 0 xs
  | VSlice _ None => Done []
  | _ => Panicked (ValueError "Len" (kind v))
  end.

Definition encodeSlice_body (fl : flag) (v : value) (tagK : string)
  : exec (list KV) :=
  x ← valueInterface fl v;
  match assertBytes x with
  | Some b => Done [mkKV tagK (base64.EncodeToString b)]
  | None =>
      x ← valueInterface fl v;
      match assertStrings x with
      | Some strList =>
          let tagList := Split tagK ","%char in
          if joinTag tagList
          then Done [mkKV (default "" (tagList !! 0)) (Join strList ",")]
          else encodeIndexed fl v tagK
      | None => encodeIndexed fl v tagK
      end
  end.

(** The two inner loops of [encodeMap] over [keyPair] and [valPair]. *)
Definition mapPairs (tagK : string) (rt keyPair valPair : list KV) : list KV :=
  foldl (λ rt key,
           foldl (λ rt val,
                    let a :=
                      if decide (tagK = "...")
                      then mkKV (V key) (V val)
                      else mkKV (tagK +:+ "." +:+ V key) (V val) in
                    rt ++ [a])
                 rt valPair)
        rt keyPair.

(** [for _, k := range keys { ... }]; [es] pairs each key with
    [v.MapIndex(k)].  [fl] is the flag of the map, [ro fl] that of its keys
    and of its values. *)
Fixpoint encodeEntries (fl : flag) (tagK : string) (rt : list KV)
    (es : list (value * value)) : exec (list KV) :=
  match es with
  | [] => Done rt
  | (k, e) :: es' =>
      keyPair ← encode (ro fl) k "";
      valPair ← encode (ro fl) e "";
      encodeEntries fl tagK (mapPairs tagK rt keyPair valPair) es'
  end.

Definition encodeMap_body (fl : flag) (v : value) (tagK : string)
  : exec (list KV) :=
  match v with
  | VMap es => encodeEntries fl tagK [] es
  | _ => Panicked (ValueError "MapKeys" (kind v))
  end.
End Bodies.

(** [encode]: strip the pointers, look the kind up among the encoders, call
    the encoder found.  The table is [encoders] below, see [encode_eq].
    [Elem] keeps the read-only bits, so [fl] stays the flag. *)
Fixpoint encode (p : FormParser) (fl : flag) (v : value) (tagK : string)
  {struct v} : exec (list KV) :=
  let v := elimPtr v in
  match kind v with
  | String => encodeString fl v tagK
  | Bool => encodeBool fl v tagK
  | Int => encodeInt fl v tagK
  | Int8 => encodeInt8 fl v tagK
  | Int16 => encodeInt16 fl v tagK
  | Int32 => encodeInt32 fl v tagK
  | Int64 => encodeInt64 fl v tagK
  | Uint => encodeUint fl v tagK
  | Uint8 => encodeUint8 fl v tagK
  | Uint16 => encodeUint16 fl v tagK
  | Uint32 => encodeUint32 fl v tagK
  | Uint64 => encodeUint64 fl v tagK
  | Float32 => encodeFloat32 fl v tagK
  | Float64 => encodeFloat64 fl v tagK
  | Complex64 => encodeComplex64 fl v tagK
  | Complex128 => encodeComplex128 fl v tagK
  | Slice => encodeSlice_body (encode p) fl v tagK
  | Array => encodeSlice_body (encode p) fl v tagK
  | Struct => encodeStruct_body p (encode p) fl v tagK
  | Map => encodeMap_body (encode p) fl v tagK
  | Invalid => encodeInvalid fl v tagK
  | Uintptr | Chan | Func | Interface | Ptr | UnsafePointer =>
      Panicked (UnknownType (kind v))
  end.

Definition parse (p : FormParser)
  : flag → value → exec (list KV * option error) :=
  parse_body p (encode p).

Definition encodeSlice (p : FormParser) : kindEncoder :=
  encodeSlice_body (encode p).

Definition encodeStruct (p : FormParser) : kindEncoder :=
  encodeStruct_body p (encode p).

Definition encodeMap (p : FormParser) : kindEncoder :=
  encodeMap_body (encode p).

(** The map built by [init]. *)
Definition encoders (p : FormParser) (k : Kind) : option kindEncoder :=
  match k with
  | String => Some encodeString
  | Bool => Some encodeBool
  | Int => Some encodeInt
  | Int8 => Some encodeInt8
  | Int16 => Some encodeInt16
  | Int32 => Some encodeInt32
  | Int64 => Some encodeInt64
  | Uint => Some encodeUint
  | Uint8 => Some encodeUint8
  | Uint16 => Some encodeUint16
  | Uint32 => Some encodeUint32
  | Uint64 => Some encodeUint64
  | Float32 => Some encodeFloat32
  | Float64 => Some encodeFloat64
  | Complex64 => Some encodeComplex64
  | Complex128 => Some encodeComplex128
  | Slice => Some (encodeSlice p)
  | Array => Some (encodeSlice p)
  | Struct => Some (encodeStruct p)
  | Map => Some (encodeMap p)
  | Invalid => Some encodeInvalid
  | Uintptr | Chan | Func | Interface | Ptr | UnsafePointer => None
  end.

(** [ToMap]: the pairs of [parse], stored one after the other into a map. *)
Definition ToMap (p : FormParser) (fl : flag) (v : value)
  : exec (option (gmap string string) * option error) :=
  r ← parse p fl v;
  match r with
  | (_, Some err) => Done (None, Some err)
  | (kvs, None) =>
      Done (Some (foldl (λ m kv, <[K kv := V kv]> m) ∅ kvs), None)
  end.

(** ** The source's own example, [parser_test.go] *)

(** A field with one tag; as in Go, it is exported when its name starts
    with an upper-case letter, and belongs to this package otherwise. *)
Definition startsUpper (name : string) : bool :=
  match name with
  | String.String c _ =>
      ((65 <=? nat_of_ascii c) && (nat_of_ascii c <=? 90))%nat
  | _ => false
  end.

Definition field (name key val : string) : StructField :=
  {| Name := name;
     PkgPath := if startsUpper name then "" else "formparser";
     Tag := [(key, val)];
     Anonymous := false |}.

Definition byteSeq : SeqType := {| defined := false; elem := ElemUint8 |}.
Definition stringSeq : SeqType := {| defined := false; elem := ElemString |}.
Definition otherSeq : SeqType := {| defined := false; elem := ElemOther |}.

Definition pa : FormParser := {| tag := "a"; ignoreFlag := "-" |}.

Definition Info (cpu : string) : value :=
  VStruct [(field "CPU" "a" "cpu", VPtr (VString cpu))].

Definition h : value :=
  VStruct
    [ (field "A" "a" "a", VInt KInt 1);
      (field "B" "a" "b", VString "BB");
      (field "C" "a" "c", VInt KInt64 2);
      (field "D" "a" "d", VFloat KFloat64 "3.14");
      (field "E" "a" "e", VSlice otherSeq (Some [VInt KInt 2; VInt KInt 0; VInt KInt 32]));
      (field "F" "a" "f", Info "1核");
      (field "G" "a" "g", VBool true);
      (field "H" "a" "h",
        VSlice otherSeq (Some [VPtr (Info "2核"); VPtr (Info "3核"); VPtr (Info "4核")]));
      (field "I" "a" "i",
        VMap [(VString "m1", VPtr (VString "m1")); (VString "m2", VPtr (VString "m2"))]);
      (field "J" "a" "j",
        VSlice byteSeq
          (Some ((λ z, VUint KUint8 z) <$> [71; 111; 108; 97; 110; 103]%Z))) ].

(** ** Notions the properties are stated with *)

(** The key composition rule: the suppression marker ["..."] leaves the
    child key as it is, any other parent key is prefixed with a dot. *)
Definition compose (parentKey childKey : string) : string :=
  if decide (parentKey = "...") then childKey
  else parentKey +:+ "." +:+ childKey.

Definition composeKV (parentKey : string) (kv : KV) : KV :=
  mkKV (compose parentKey (K kv)) (V kv).

(** The results of a sequence of calls, in order: the first panic, or all
    the pairs. *)
Fixpoint collect (rs : list (exec (list KV))) : exec (list KV) :=
  match rs with
  | [] => Done []
  | r :: rs' => kvs ← r; rest ← collect rs'; Done (kvs ++ rest)
  end.

(** The elements [v.Index(0)], ..., [v.Index(v.Len()-1)] of a sequence. *)
Definition seqElems (v : value) : list value :=
  match v with
  | VSlice _ xs => sliceElems xs
  | VArray _ xs => xs
  | _ => []
  end.

(** What one field of a struct contributes; [fl] is the flag of the
    struct. *)
Definition fieldPairs (p : FormParser) (fl : flag) (fx : StructField * value)
  : exec (list KV) :=
  let field := elimPtr fx.2 in
  if decide (kind field = Invalid) then Done []
  else if (fieldTag p fx.1).2 then Done []
       else encode p (fieldFlag fl fx.1) field (fieldTag p fx.1).1.

(** What one map entry contributes under the key [tagK]: a pair for every
    pair of the key's encoding and every pair of the value's encoding. *)
Definition crossPairs (tagK : string) (keyPair valPair : list KV) : list KV :=
  key ← keyPair; val ← valPair; [mkKV (compose tagK (V key)) (V val)].

Definition entryPairs (p : FormParser) (fl : flag) (tagK : string)
    (e : value * value) : exec (list KV) :=
  keyPair ← encode p (ro fl) e.1 "";
  valPair ← encode p (ro fl) e.2 "";
  Done (crossPairs tagK keyPair valPair).

(** The value of the last pair of [kvs] that bears the key [k]. *)
Definition lastValue (k : string) (kvs : list KV) : option string :=
  V <$> last (filter (λ kv, K kv = k) kvs).

(** [n] pointer layers around [v]. *)
Fixpoint pointers (n : nat) (v : value) : value :=
  match n with
  | 0 => v
  | S n' => VPtr (pointers n' v)
  end.

(** [reaches p v]: encoding [v] comes across a value whose kind has no
    encoder: [v] itself behind its pointers, an element of a sequence, a
    field of a struct that is neither absent nor dropped, a key or a value
    of a map. *)
Inductive reaches (p : FormParser) : value → Prop :=
| reaches_here v :
    encoders p (kind (elimPtr v)) = None → reaches p v
| reaches_elem v x :
    x ∈ seqElems (elimPtr v) → reaches p x → reaches p v
| reaches_field v fs f x :
    elimPtr v = VStruct fs → (f, x) ∈ fs →
    kind (elimPtr x) ≠ Invalid → (fieldTag p f).2 = false →
    reaches p x → reaches p v
| reaches_key v es k e :
    elimPtr v = VMap es → (k, e) ∈ es → reaches p k → reaches p v
| reaches_val v es k e :
    elimPtr v = VMap es → (k, e) ∈ es → reaches p e → reaches p v.

(** [plain v]: every scalar in [v] has the predeclared type of its kind and
    every struct field in [v] is exported.  On such a value, read with a
    flag that is not read-only, [Interface] and the type assertions of the
    scalar encoders never fail. *)
Fixpoint plain (v : value) : bool :=
  match v with
  | VInvalid => true
  | VScalar named _ => negb named
  | VSlice _ (Some xs) | VArray _ xs => forallb plain xs
  | VSlice _ None => true
  | VStruct fs => forallb (λ '(f, x), IsExported f && plain x) fs
  | VMap es => forallb (λ '(k, e), plain k && plain e) es
  | VPtr e => plain e
  | VOpaque _ => true
  end.

(** ** Pointer helpers

    [StringPtr], [IntPtr], [Int64Ptr], [BoolPtr]: the address of a copy of
    the argument, as reflection sees it. *)

Definition StringPtr (v : string) : value := VPtr (VString v).

(** ** Further notions *)

(** The text a scalar encoder gives to the content of a value of its
    kind. *)
Definition textOfScalar (s : scalar) : string :=
  match s with
  | SBool b => FormatBool b
  | SInt _ z | SUint _ z => FormatInt z
  | SFloat _ text | SComplex _ text => text
  | SString s => s
  end.

(** The text of a scalar of a predeclared type. *)
Definition scalarText (v : value) : option string :=
  match v with
  | VScalar false s => Some (textOfScalar s)
  | _ => None
  end.

Definition textOf (v : value) : string := default "" (scalarText (elimPtr v)).

(** [s] starts with [pre]. *)
Definition hasPrefix (s pre : string) : Prop := ∃ rest, s = pre +:+ rest.

Definition commaFree (s : string) : Prop :=
  ","%char ∉ list_ascii_of_string s.

(** A decimal digit. *)
Definition digit (c : ascii) : Prop := (48 ≤ nat_of_ascii c ≤ 57)%nat.

(** ** Induction on values *)

Section value_ind_nested.
Variable P : value → Prop.
Hypothesis HInvalid : P VInvalid.
Hypothesis HScalar : ∀ named s, P (VScalar named s).
Hypothesis HSlice : ∀ t xs, Forall P (sliceElems xs) → P (VSlice t xs).
Hypothesis HArray : ∀ t xs, Forall P xs → P (VArray t xs).
Hypothesis HStruct : ∀ fs, Forall (λ fx, P fx.2) fs → P (VStruct fs).
Hypothesis HMap : ∀ es, Forall (λ e, P e.1 ∧ P e.2) es → P (VMap es).
Hypothesis HPtr : ∀ e, P e → P (VPtr e).
Hypothesis HOpaque : ∀ k, P (VOpaque k).

Fixpoint value_ind_nested (v : value) : P v :=
  let all :=
    fix all (l : list value) : Forall P l :=
      match l with
      | [] => List.Forall_nil _
      | x :: l' => List.Forall_cons _ _ _ (value_ind_nested x) (all l')
      end in
  match v with
  | VInvalid => HInvalid
  | VScalar named s => HScalar named s
  | VSlice t xs =>
      HSlice t xs
        match xs return Forall P (sliceElems xs) with
        | Some l => all l
        | None => List.Forall_nil _
        end
  | VArray t xs => HArray t xs (all xs)
  | VStruct fs =>
      HStruct fs
        ((fix fields (l : list (StructField * value))
            : Forall (λ fx, P fx.2) l :=
            match l with
            | [] => List.Forall_nil _
            | fx :: l' =>
                List.Forall_cons (λ fx, P fx.2) fx l' (value_ind_nested fx.2) (fields l')
            end) fs)
  | VMap es =>
      HMap es
        ((fix entries (l : list (value * value))
            : Forall (λ e, P e.1 ∧ P e.2) l :=
            match l with
            | [] => List.Forall_nil _
            | e :: l' =>
                List.Forall_cons (λ e, P e.1 ∧ P e.2) e l'
                  (conj (value_ind_nested e.1) (value_ind_nested e.2))
                  (entries l')
            end) es)
  | VPtr e => HPtr e (value_ind_nested e)
  | VOpaque k => HOpaque k
  end.
End value_ind_nested.

(** * Properties *)

(** ** The model on known inputs *)

(** RFC 4648, section 10. *)
Example base64_test_vectors :
  base64.EncodeToString [] = "" ∧
  base64.EncodeToString [102]%Z = "Zg==" ∧
  base64.EncodeToString [102; 111]%Z = "Zm8=" ∧
  base64.EncodeToString [102; 111; 111]%Z = "Zm9v" ∧
  base64.EncodeToString [102; 111; 111; 98]%Z = "Zm9vYg==" ∧
  base64.EncodeToString [102; 111; 111; 98; 97]%Z = "Zm9vYmE=" ∧
  base64.EncodeToString [102; 111; 111; 98; 97; 114]%Z = "Zm9vYmFy" ∧
  base64.EncodeToString [251; 255; 190]%Z = "+/++".
Proof. by vm_compute. Qed.

Example Split_examples :
  Split "" ","%char = [""] ∧
  Split "items" ","%char = ["items"] ∧
  Split "items,join" ","%char = ["items"; "join"] ∧
  Split ",join" ","%char = [""; "join"] ∧
  Split "a,,b," ","%char = ["a"; ""; "b"; ""].
Proof. by vm_compute. Qed.

(** [TestParse]: the value [h] parses, to these pairs. *)
Example TestParse :
  parse pa noFlag h =
  Done ([mkKV "a" "1"; mkKV "b" "BB"; mkKV "c" "2"; mkKV "d" "3.14";
         mkKV "e.0" "2"; mkKV "e.1" "0"; mkKV "e.2" "32";
         mkKV "f.cpu" "1核"; mkKV "g" "true";
         mkKV "h.0.cpu" "2核"; mkKV "h.1.cpu" "3核"; mkKV "h.2.cpu" "4核";
         mkKV "i.m1" "m1"; mkKV "i.m2" "m2";
         mkKV "j" "R29sYW5n"], None).
Proof. by vm_compute. Qed.

Example Default_parser : Default = Done {| tag := "zwf"; ignoreFlag := "-" |}.
Proof. reflexivity. Qed.

(** A scalar of a defined type, and a scalar in an unexported field: the
    encoder found by kind panics, in its type assertion and in [Interface]. *)
Example defined_and_unexported :
  parse pa noFlag (VStruct [(field "N" "a" "n", VScalar true (SInt KInt 1))])
    = Panicked InterfaceConversion ∧
  parse pa noFlag (VStruct [(field "n" "a" "n", VInt KInt 1)])
    = Panicked InterfaceRO.
Proof. by vm_compute. Qed.

(** ** The outcome monad *)

Lemma bind_Done {A B} (a : A) (f : A → exec B) : (Done a ≫= f) = f a.
Proof. reflexivity. Qed.

Lemma bind_Panicked {A B} (pn : panic) (f : A → exec B) :
  (Panicked pn ≫= f) = Panicked pn.
Proof. reflexivity. Qed.

Lemma bind_inv_Done {A B} (m : exec A) (f : A → exec B) (b : B) :
  (m ≫= f) = Done b → ∃ a, m = Done a ∧ f a = Done b.
Proof. destruct m as [a|pn]; [eauto | discriminate]. Qed.

Lemma bind_inv_Panicked {A B} (m : exec A) (f : A → exec B) (pn : panic) :
  (m ≫= f) = Panicked pn →
  m = Panicked pn ∨ ∃ a, m = Done a ∧ f a = Panicked pn.
Proof. destruct m as [a|pn']; [eauto | intros [= ->]; eauto]. Qed.

Lemma collect_app (rs1 rs2 : list (exec (list KV))) :
  collect (rs1 ++ rs2) =
  (kvs ← collect rs1; rest ← collect rs2; Done (kvs ++ rest)).
Proof.
  induction rs1 as [|r rs1 IH]; simpl.
  - destruct (collect rs2); reflexivity.
  - destruct r as [kvs|pn]; simpl; [|reflexivity].
    rewrite IH. destruct (collect rs1) as [k1|]; simpl; [|reflexivity].
    destruct (collect rs2) as [k2|]; simpl; [|reflexivity].
    by rewrite app_assoc.
Qed.

Lemma collect_Done_nil (rs : list (exec (list KV))) :
  Forall (λ r, r = Done []) rs → collect rs = Done [].
Proof.
  induction 1 as [|r rs -> _ IH]; simpl; [done|]. by rewrite IH.
Qed.

Lemma collect_panics (rs : list (exec (list KV))) (r : exec (list KV)) :
  r ∈ rs → (∃ pn, r = Panicked pn) → ∃ pn, collect rs = Panicked pn.
Proof.
  intros Hin [pn ->]. induction rs as [|r' rs IH]; [by apply elem_of_nil in Hin|].
  apply elem_of_cons in Hin as [<-|Hin]; simpl; [eauto|].
  destruct r' as [kvs|pn']; simpl; [|eauto].
  destruct (IH Hin) as [pn' ->]. simpl. eauto.
Qed.

Lemma collect_inv_Panicked (rs : list (exec (list KV))) (pn : panic) :
  collect rs = Panicked pn → Panicked pn ∈ rs.
Proof.
  induction rs as [|r rs IH]; simpl; [discriminate|].
  destruct r as [kvs|pn']; simpl.
  - destruct (collect rs) as [rest|pn'']; simpl; [discriminate|].
    intros [= ->]. apply elem_of_cons. right. by apply IH.
  - intros [= ->]. apply elem_of_cons. by left.
Qed.

(** ** Pointers, flags and dispatch *)

Lemma elimPtr_idemp v : elimPtr (elimPtr v) = elimPtr v.
Proof. induction v; simpl; auto. Qed.

Lemma kind_elimPtr v : kind (elimPtr v) ≠ Ptr.
Proof.
  induction v as [|named [b|[] z|[] z|[] t|[] t|s]| | | | |e IH|[]];
    simpl; auto; discriminate.
Qed.

Lemma elimPtr_pointers n v : elimPtr (pointers n v) = elimPtr v.
Proof. induction n; simpl; auto. Qed.

Lemma flagRO_ro fl : flagRO (ro fl) = flagRO fl.
Proof. unfold ro. by destruct (flagRO fl) eqn:H. Qed.

Lemma ro_rw fl : flagRO fl = false → ro fl = noFlag.
Proof. unfold ro. by intros ->. Qed.

Lemma ro_idemp fl : ro (ro fl) = ro fl.
Proof. unfold ro at 1 3. rewrite flagRO_ro. by destruct (flagRO fl). Qed.

Lemma fieldFlag_exported fl f :
  IsExported f = true → fieldFlag fl f = mkFlag (flagStickyRO fl) false.
Proof. unfold fieldFlag. by intros ->. Qed.

Lemma flagRO_fieldFlag fl f :
  flagRO (fieldFlag fl f) = flagStickyRO fl || negb (IsExported f).
Proof.
  unfold fieldFlag, flagRO. destruct (IsExported f), (Anonymous f);
    simpl; by rewrite ?orb_false_r, ?orb_true_r.
Qed.

Lemma valueInterface_rw fl v :
  flagRO fl = false → kind v ≠ Invalid → valueInterface fl v = Done v.
Proof. intros Hfl Hk. destruct v; simpl in *; by rewrite ?Hfl. Qed.

Lemma valueInterface_ro fl v :
  flagRO fl = true → kind v ≠ Invalid → valueInterface fl v = Panicked InterfaceRO.
Proof. intros Hfl Hk. destruct v; simpl in *; by rewrite ?Hfl. Qed.

(** [encode] is the lookup in the table of [init]: a kind without entry
    panics, any other is handed to its encoder. *)
Lemma encode_eq p fl v tagK :
  encode p fl v tagK =
  let v := elimPtr v in
  match encoders p (kind v) with
  | Some e => e fl v tagK
  | None => Panicked (UnknownType (kind v))
  end.
Proof.
  destruct v as [|named [b|[] z|[] z|[] t|[] t|s]| | | | |e|[]];
    simpl; try reflexivity.
  destruct (kind (elimPtr e)); reflexivity.
Qed.

Lemma encode_elimPtr p fl v tagK :
  encode p fl (elimPtr v) tagK = encode p fl v tagK.
Proof. rewrite !encode_eq. simpl. by rewrite elimPtr_idemp. Qed.

Lemma encode_VPtr p fl e tagK : encode p fl (VPtr e) tagK = encode p fl e tagK.
Proof. by rewrite <- (encode_elimPtr p fl (VPtr e)), <- (encode_elimPtr p fl e). Qed.

Lemma encode_pointers p fl n v tagK :
  encode p fl (pointers n v) tagK = encode p fl v tagK.
Proof. induction n; [done|]. cbn [pointers]. by rewrite encode_VPtr. Qed.

Lemma parse_elimPtr p fl v : parse p fl (elimPtr v) = parse p fl v.
Proof. induction v; simpl; auto. Qed.

Lemma parse_not_struct p fl v :
  kind (elimPtr v) ≠ Struct → parse p fl v = Done ([], Some InvalidRoot).
Proof.
  induction v; simpl; intros Hk; try reflexivity; [congruence | auto].
Qed.

Lemma parse_struct p fl v fs :
  elimPtr v = VStruct fs → parse p fl v = parseFields p (encode p) fl [] fs.
Proof. intros Hv. rewrite <- parse_elimPtr, Hv. reflexivity. Qed.

(** ** The loops, as the list of their calls *)

Lemma fieldPairs_eq p fl f x :
  fieldPairs p fl (f, x) =
  if decide (kind (elimPtr x) = Invalid) then Done []
  else if (fieldTag p f).2 then Done []
       else encode p (fieldFlag fl f) (elimPtr x) (fieldTag p f).1.
Proof. reflexivity. Qed.

Lemma entryPairs_eq p fl tagK k e :
  entryPairs p fl tagK (k, e) =
  (keyPair ← encode p (ro fl) k ""; valPair ← encode p (ro fl) e "";
   Done (crossPairs tagK keyPair valPair)).
Proof. reflexivity. Qed.

#[global] Arguments fieldPairs : simpl never.
#[global] Arguments entryPairs : simpl never.
#[global] Arguments encode : simpl never.

Lemma parseFields_collect p fl kvs fs :
  parseFields p (encode p) fl kvs fs =
  (r ← collect (fieldPairs p fl <$> fs); Done (kvs ++ r, None)).
Proof.
  revert kvs. induction fs as [|[f x] fs IH]; intros kvs; simpl.
  { by rewrite app_nil_r. }
  rewrite fieldPairs_eq.
  destruct (decide (kind (elimPtr x) = Invalid)) as [Hk|Hk]; simpl.
  { rewrite IH. by destruct (collect _). }
  destruct (fieldTag p f) as [tagK drop]; simpl.
  destruct drop; simpl.
  { rewrite IH. by destruct (collect _). }
  destruct (encode p (fieldFlag fl f) (elimPtr x) tagK) as [r|pn]; simpl;
    [|reflexivity].
  rewrite IH. destruct (collect _); simpl; [|reflexivity].
  by rewrite app_assoc.
Qed.

Lemma parse_collect p fl v fs :
  elimPtr v = VStruct fs →
  parse p fl v = (r ← collect (fieldPairs p fl <$> fs); Done (r, None)).
Proof. intros Hv. rewrite (parse_struct p fl v fs Hv). apply parseFields_collect. Qed.

Lemma encodeElems_collect p fl tagK rt i xs :
  encodeElems (encode p) fl tagK rt i xs =
  (r ← collect (imap (λ j x, encode p (ro fl) x (tagK +:+ "." +:+ Itoa (i + j))) xs);
   Done (rt ++ r)).
Proof.
  revert rt i. induction xs as [|x xs IH]; intros rt i; simpl.
  { by rewrite app_nil_r. }
  rewrite Nat.add_0_r.
  destruct (encode p (ro fl) x (tagK +:+ "." +:+ Itoa i)) as [r|pn]; simpl;
    [|reflexivity].
  rewrite IH.
  rewrite (imap_ext (λ j x0, encode p (ro fl) x0 (tagK +:+ "." +:+ Itoa (S i + j)))
             ((λ j x0, encode p (ro fl) x0 (tagK +:+ "." +:+ Itoa (i + j))) ∘ S) xs).
  2:{ intros j y _. simpl. by rewrite Nat.add_succ_r. }
  destruct (collect _); simpl; [|reflexivity].
  by rewrite app_assoc.
Qed.

Lemma mapPairs_cross tagK rt keyPair valPair :
  mapPairs tagK rt keyPair valPair = rt ++ crossPairs tagK keyPair valPair.
Proof.
  unfold mapPairs, crossPairs.
  revert rt. induction keyPair as [|key keyPair IH]; intros rt; simpl.
  { by rewrite app_nil_r. }
  rewrite IH. rewrite app_assoc. f_equal.
  clear IH. revert rt. induction valPair as [|val valPair IH]; intros rt; simpl.
  { by rewrite app_nil_r. }
  rewrite IH. rewrite <- app_assoc. simpl. unfold compose.
  by destruct (decide (tagK = "...")).
Qed.

Lemma encodeEntries_collect p fl tagK rt es :
  encodeEntries (encode p) fl tagK rt es =
  (r ← collect (entryPairs p fl tagK <$> es); Done (rt ++ r)).
Proof.
  revert rt. induction es as [|[k e] es IH]; intros rt; simpl.
  { by rewrite app_nil_r. }
  rewrite entryPairs_eq.
  destruct (encode p (ro fl) k "") as [keyPair|pn]; simpl; [|reflexivity].
  destruct (encode p (ro fl) e "") as [valPair|pn]; simpl; [|reflexivity].
  rewrite IH, mapPairs_cross.
  destruct (collect _); simpl; [|reflexivity].
  by rewrite app_assoc.
Qed.

Lemma prefixKeys_fmap tagK kvs : prefixKeys tagK kvs = composeKV tagK <$> kvs.
Proof.
  unfold prefixKeys.
  enough (∀ suf pre,
    foldl (λ kvs i,
             match kvs !! i with
             | Some kv =>
                 <[i := if decide (tagK ≠ "...")
                        then mkKV (tagK +:+ "." +:+ K kv) (V kv) else kv]> kvs
             | None => kvs
             end)
          (pre ++ suf) (seq (length pre) (length suf))
    = pre ++ (composeKV tagK <$> suf)) as H by apply (H kvs []).
  induction suf as [|kv suf IH]; intros pre; simpl; [done|].
  rewrite list_lookup_middle by done.
  rewrite insert_app_r_alt, Nat.sub_diag by lia. cbn [insert list_insert].
  replace (if decide (tagK ≠ "...") then _ else kv) with (composeKV tagK kv).
  2:{ unfold composeKV, compose. destruct kv as [k v]; simpl.
      destruct (decide (tagK = "...")), (decide (tagK ≠ "...")); done. }
  rewrite (cons_middle (composeKV tagK kv) pre suf), app_assoc.
  replace (S (length pre)) with (length (pre ++ [composeKV tagK kv])).
  2:{ rewrite length_app. simpl. lia. }
  rewrite IH, <- app_assoc. reflexivity.
Qed.

(** ** The encoders, case by case *)

Ltac kind_inv v H :=
  destruct v as [|? [?|[] ?|[] ?|[] ?|[] ?|?]| | | | | |[]]; simpl in H;
  try discriminate H; eauto.

Lemma kind_Struct_inv v : kind v = Struct → ∃ fs, v = VStruct fs.
Proof. intros H. kind_inv v H. Qed.

Lemma kind_Map_inv v : kind v = Map → ∃ es, v = VMap es.
Proof. intros H. kind_inv v H. Qed.

Lemma kind_Slice_inv v : kind v = Slice → ∃ t xs, v = VSlice t xs.
Proof. intros H. kind_inv v H. Qed.

Lemma kind_Array_inv v : kind v = Array → ∃ t xs, v = VArray t xs.
Proof. intros H. kind_inv v H. Qed.

Lemma kind_Invalid_inv v : kind v = Invalid → v = VInvalid.
Proof. intros H. kind_inv v H. Qed.

Lemma composeKV_suppressed (kvs : list KV) : composeKV "..." <$> kvs = kvs.
Proof.
  induction kvs as [|[k v] kvs IH]; [done|].
  rewrite fmap_cons, IH. reflexivity.
Qed.

Lemma encodeStruct_eq p fl v tagK :
  encodeStruct p fl v tagK =
  parse p fl v ≫= λ r : list KV * option error,
    match r.2 with
    | Some err => Panicked (ParseFailed tagK err)
    | None => Done (composeKV tagK <$> r.1)
    end.
Proof.
  unfold encodeStruct, encodeStruct_body. fold (parse p fl v).
  destruct (parse p fl v) as [[kvs [err|]]|pn]; simpl; try reflexivity.
  by rewrite prefixKeys_fmap.
Qed.

Lemma encode_struct p fl v tagK :
  kind (elimPtr v) = Struct →
  encode p fl v tagK =
  parse p fl v ≫= λ r : list KV * option error, Done (composeKV tagK <$> r.1).
Proof.
  intros Hk. rewrite encode_eq. simpl. rewrite Hk. simpl.
  rewrite encodeStruct_eq, parse_elimPtr.
  destruct (kind_Struct_inv _ Hk) as [fs Hv].
  rewrite (parse_collect p fl v fs Hv).
  by destruct (collect _).
Qed.

Lemma encode_map p fl es tagK :
  encode p fl (VMap es) tagK = collect (entryPairs p fl tagK <$> es).
Proof.
  rewrite encode_eq. simpl. unfold encodeMap, encodeMap_body.
  rewrite encodeEntries_collect. by destruct (collect _).
Qed.

Lemma encodeIndexed_collect p fl v tagK :
  kind v = Slice ∨ kind v = Array →
  encodeIndexed (encode p) fl v tagK =
  collect (imap (λ i x, encode p (ro fl) x (tagK +:+ "." +:+ Itoa i)) (seqElems v)).
Proof.
  intros [Hk|Hk].
  - destruct (kind_Slice_inv _ Hk) as (t & [xs|] & ->); simpl; [|done].
    rewrite encodeElems_collect. by destruct (collect _).
  - destruct (kind_Array_inv _ Hk) as (t & xs & ->); simpl.
    rewrite encodeElems_collect. by destruct (collect _).
Qed.

Lemma seq_kind_not_Invalid v : kind v = Slice ∨ kind v = Array → kind v ≠ Invalid.
Proof. intros [-> | ->]; discriminate. Qed.

Lemma seq_elimPtr v : kind v = Slice ∨ kind v = Array → elimPtr v = v.
Proof.
  intros [Hk|Hk];
    [destruct (kind_Slice_inv _ Hk) as (t & xs & ->)
    |destruct (kind_Array_inv _ Hk) as (t & xs & ->)]; done.
Qed.

Lemma encode_seq p fl v tagK :
  kind v = Slice ∨ kind v = Array →
  encode p fl v tagK = encodeSlice p fl v tagK.
Proof.
  intros Hk. rewrite encode_eq, (seq_elimPtr v Hk).
  simpl. by destruct Hk as [-> | ->].
Qed.

Lemma encode_seq_ptr p fl v tagK :
  kind (elimPtr v) = Slice ∨ kind (elimPtr v) = Array →
  encode p fl v tagK = encodeSlice_body (encode p) fl (elimPtr v) tagK.
Proof.
  intros Hk. rewrite <- encode_elimPtr. by rewrite (encode_seq p fl _ tagK Hk).
Qed.

(** [encodeSlice] on a value that may be read, and on one that may not. *)
Lemma encodeSlice_rw p fl v tagK :
  flagRO fl = false → kind v = Slice ∨ kind v = Array →
  encodeSlice p fl v tagK =
  match assertBytes v with
  | Some b => Done [mkKV tagK (base64.EncodeToString b)]
  | None =>
      match assertStrings v with
      | Some strList =>
          if joinTag (Split tagK ","%char)
          then Done [mkKV (default "" (Split tagK ","%char !! 0))
                          (Join strList ",")]
          else encodeIndexed (encode p) fl v tagK
      | None => encodeIndexed (encode p) fl v tagK
      end
  end.
Proof.
  intros Hfl Hk. unfold encodeSlice, encodeSlice_body.
  rewrite (valueInterface_rw fl v Hfl (seq_kind_not_Invalid v Hk)). simpl.
  by destruct (assertBytes v).
Qed.

Lemma encodeSlice_ro p fl v tagK :
  flagRO fl = true → kind v = Slice ∨ kind v = Array →
  encodeSlice p fl v tagK = Panicked InterfaceRO.
Proof.
  intros Hfl Hk. unfold encodeSlice, encodeSlice_body.
  by rewrite (valueInterface_ro fl v Hfl (seq_kind_not_Invalid v Hk)).
Qed.

Lemma encode_general p fl v tagK :
  flagRO fl = false →
  kind v = Slice ∨ kind v = Array →
  assertBytes v = None →
  assertStrings v = None ∨ joinTag (Split tagK ","%char) = false →
  encode p fl v tagK =
    collect (imap (λ i x, encode p (ro fl) x (tagK +:+ "." +:+ Itoa i))
                  (seqElems v)).
Proof.
  intros Hfl Hk Hb Hs.
  rewrite (encode_seq p fl v tagK Hk), (encodeSlice_rw p fl v tagK Hfl Hk), Hb.
  destruct Hs as [-> | Hj].
  - by apply encodeIndexed_collect.
  - destruct (assertStrings v); [rewrite Hj|]; by apply encodeIndexed_collect.
Qed.

Lemma fieldPairs_kept p fl f x tagK :
  kind (elimPtr x) ≠ Invalid → fieldTag p f = (tagK, false) →
  fieldPairs p fl (f, x) = encode p (fieldFlag fl f) x tagK.
Proof.
  intros Hk Hf. rewrite fieldPairs_eq, Hf. simpl.
  rewrite decide_False by done. apply encode_elimPtr.
Qed.

Lemma parse_single p fl f x :
  parse p fl (VStruct [(f, x)]) = (r ← fieldPairs p fl (f, x); Done (r, None)).
Proof.
  rewrite (parse_collect p fl _ [(f, x)]) by done. simpl.
  destruct (fieldPairs p fl (f, x)); simpl; [|done]. by rewrite app_nil_r.
Qed.

(** A field may be read when it is exported and its struct was not itself
    read through an unexported field. *)
Lemma field_readable fl f :
  flagStickyRO fl = false → IsExported f = true →
  flagRO (fieldFlag fl f) = false.
Proof. intros Hfl Hf. by rewrite flagRO_fieldFlag, Hfl, Hf. Qed.

(** C4. The pairs of a nested struct field carry the key of the field in
    front of their own key, joined by a dot; under the suppression marker
    ["..."] they keep their own key.  Stated for the field's contribution
    and for a struct made of this one field; the inner struct is parsed
    under the flag of the field. *)
Theorem C4_nested_struct_key_composition p fl f v tagK kvs :
  kind (elimPtr v) = Struct →
  fieldTag p f = (tagK, false) →
  parse p (fieldFlag fl f) v = Done (kvs, None) →
  fieldPairs p fl (f, v) = Done (composeKV tagK <$> kvs) ∧
  parse p fl (VStruct [(f, v)]) = Done (composeKV tagK <$> kvs, None) ∧
  (tagK = "..." → composeKV tagK <$> kvs = kvs) ∧
  (tagK ≠ "..." →
   composeKV tagK <$> kvs = (λ kv, mkKV (tagK +:+ "." +:+ K kv) (V kv)) <$> kvs).
Proof.
  intros Hk Hf Hp.
  assert (fieldPairs p fl (f, v) = Done (composeKV tagK <$> kvs)) as Hfp.
  { rewrite (fieldPairs_kept p fl f v tagK), encode_struct, Hp; try done.
    rewrite Hk. discriminate. }
  split; [done|]. split.
  { by rewrite parse_single, Hfp. }
  split.
  - intros ->. apply composeKV_suppressed.
  - intros Hne. apply list_fmap_ext. intros _ kv _.
    unfold composeKV, compose. by rewrite decide_False.
Qed.

(** The source's own example: [Auth] tagged ["auth"] gives ["auth.ak"],
    tagged ["..."] gives ["ak"]. *)
Lemma C4_witness :
  let p := {| tag := "zwf"; ignoreFlag := "-" |} in
  let Auth := VStruct [(field "AK" "zwf" "ak", VPtr (VString "xxx"))] in
  (kind (elimPtr Auth) = Struct ∧
   fieldTag p (field "Auth" "zwf" "auth") = ("auth", false) ∧
   parse p (fieldFlag noFlag (field "Auth" "zwf" "auth")) Auth
     = Done ([mkKV "ak" "xxx"], None)) ∧
  parse p noFlag (VStruct [(field "Auth" "zwf" "auth", Auth)])
    = Done ([mkKV "auth.ak" "xxx"], None) ∧
  parse p noFlag (VStruct [(field "Auth" "zwf" "...", Auth)])
    = Done ([mkKV "ak" "xxx"], None).
Proof.
  intros p Auth. split; [by vm_compute|]. split.
  - apply (C4_nested_struct_key_composition p noFlag
             (field "Auth" "zwf" "auth") Auth "auth" [mkKV "ak" "xxx"]);
      by vm_compute.
  - apply (C4_nested_struct_key_composition p noFlag
             (field "Auth" "zwf" "...") Auth "..." [mkKV "ak" "xxx"]);
      by vm_compute.
Defined.

(** C7. A map field yields, entry by entry in iteration order, one pair for
    every pair of the key's encoding and every pair of the value's encoding
    (both encoded under the empty key): the key composed with the rendered
    map key, the value of the value's pair. *)
Theorem C7_map_cross_product p fl es tagK :
  encodeMap p fl (VMap es) tagK = collect (entryPairs p fl tagK <$> es) ∧
  encode p fl (VMap es) tagK = collect (entryPairs p fl tagK <$> es) ∧
  (∀ k e keyPair valPair,
     encode p (ro fl) k "" = Done keyPair →
     encode p (ro fl) e "" = Done valPair →
     entryPairs p fl tagK (k, e) =
     Done (key ← keyPair; val ← valPair;
           [mkKV (if decide (tagK = "...") then V key
                  else tagK +:+ "." +:+ V key) (V val)])).
Proof.
  split; [|split].
  - rewrite <- encode_map. rewrite encode_eq. reflexivity.
  - apply encode_map.
  - intros k e keyPair valPair Hk He. rewrite entryPairs_eq, Hk, He. reflexivity.
Qed.

(** A map from names to a struct of two fields: each entry gives two pairs
    under the same key. *)
Lemma C7_witness :
  let point x y := VStruct [(field "X" "a" "x", VInt KInt x);
                            (field "Y" "a" "y", VInt KInt y)] in
  let es := [(VString "p", point 1%Z 2%Z); (VString "q", point 3%Z 4%Z)] in
  (encode pa (ro noFlag) (VString "p") "" = Done [mkKV "" "p"] ∧
   encode pa (ro noFlag) (point 1%Z 2%Z) ""
     = Done [mkKV ".x" "1"; mkKV ".y" "2"]) ∧
  entryPairs pa noFlag "i" (VString "p", point 1%Z 2%Z)
    = Done [mkKV "i.p" "1"; mkKV "i.p" "2"] ∧
  encodeMap pa noFlag (VMap es) "i"
    = Done [mkKV "i.p" "1"; mkKV "i.p" "2"; mkKV "i.q" "3"; mkKV "i.q" "4"] ∧
  encodeMap pa noFlag (VMap es) "..."
    = Done [mkKV "p" "1"; mkKV "p" "2"; mkKV "q" "3"; mkKV "q" "4"].
Proof.
  intros point es. split; [by vm_compute|]. split; [|split].
  - rewrite (proj2 (proj2 (C7_map_cross_product pa noFlag es "i"))
               (VString "p") (point 1%Z 2%Z) [mkKV "" "p"]
               [mkKV ".x" "1"; mkKV ".y" "2"]); by vm_compute.
  - rewrite (proj1 (C7_map_cross_product pa noFlag es "i")). by vm_compute.
  - rewrite (proj1 (C7_map_cross_product pa noFlag es "...")). by vm_compute.
Defined.

(** C2, as stated, fails: the element keys of a sequence are not built by
    the composition rule.  Under the key ["..."] the elements of
    [[]string{"a", "b"}] get the keys ["....0"] and ["....1"], where the
    composition rule would give ["0"] and ["1"]. *)
Lemma C2_counterexample :
  let v := VSlice stringSeq (Some [VString "a"; VString "b"]) in
  encode pa noFlag v "..." = Done [mkKV "....0" "a"; mkKV "....1" "b"] ∧
  parse pa noFlag (VStruct [(field "Items" "a" "...", v)])
    = Done ([mkKV "....0" "a"; mkKV "....1" "b"], None) ∧
  collect (imap (λ i x, encode pa noFlag x (compose "..." (Itoa i))) (seqElems v))
    = Done [mkKV "0" "a"; mkKV "1" "b"] ∧
  encode pa noFlag v "..." ≠
    collect (imap (λ i x, encode pa noFlag x (compose "..." (Itoa i))) (seqElems v)).
Proof. by vm_compute. Qed.

(** C2, amended.  In the general case of a sequence (neither [[]byte] nor a
    joined [[]string]) the element at index [i] is encoded under the key
    [tagK + "." + i], whatever [tagK] is, the marker ["..."] included; the
    results follow each other in index order and the first panic is the
    panic of the whole.  The sequence is one that may be read; one read
    through an unexported field panics in [Interface]. *)
Theorem C2_sequence_element_keys p fl v tagK :
  kind v = Slice ∨ kind v = Array →
  assertBytes v = None →
  assertStrings v = None ∨ joinTag (Split tagK ","%char) = false →
  (flagRO fl = false →
   encode p fl v tagK =
     collect (imap (λ i x, encode p (ro fl) x (tagK +:+ "." +:+ Itoa i))
                   (seqElems v))) ∧
  (flagRO fl = true → encode p fl v tagK = Panicked InterfaceRO).
Proof.
  intros Hk Hb Hs. split; intros Hfl.
  - by apply encode_general.
  - rewrite (encode_seq p fl v tagK Hk). by apply encodeSlice_ro.
Qed.

Lemma C2_witness :
  let v := VSlice stringSeq (Some [VString "a"; VString "b"]) in
  ((kind v = Slice ∨ kind v = Array) ∧ assertBytes v = None ∧
   (assertStrings v = None ∨ joinTag (Split "items" ","%char) = false) ∧
   flagRO noFlag = false) ∧
  encode pa noFlag v "items" =
    collect (imap (λ i x, encode pa (ro noFlag) x ("items" +:+ "." +:+ Itoa i))
                  (seqElems v)) ∧
  encode pa noFlag v "items" = Done [mkKV "items.0" "a"; mkKV "items.1" "b"].
Proof.
  intros v. split; [|split].
  - split; [by left|]. split; [done|]. split; [by right|done].
  - apply (C2_sequence_element_keys pa noFlag v "items");
      [by left | done | by right | done].
  - by vm_compute.
Defined.

(** C9. A root that does not resolve to a struct behind its pointers (a nil
    pointer included) is refused with the error [InvalidRoot] and no pairs.
    A struct root yields the pairs of its fields under their own keys, with
    no prefix: the pairs the struct encoder yields when it adds no prefix. *)
Theorem C9_root_must_be_struct p fl root :
  (kind (elimPtr root) ≠ Struct →
   parse p fl root = Done ([], Some InvalidRoot) ∧
   ToMap p fl root = Done (None, Some InvalidRoot)) ∧
  (kind (elimPtr root) = Struct →
   parse p fl root
     = (encodeStruct p fl (elimPtr root) "..." ≫= λ kvs, Done (kvs, None)) ∧
   ∀ fs, elimPtr root = VStruct fs →
         parse p fl root
           = (collect (fieldPairs p fl <$> fs) ≫= λ kvs, Done (kvs, None))).
Proof.
  split; intros Hk.
  - assert (parse p fl root = Done ([], Some InvalidRoot)) as Hp
      by by apply parse_not_struct.
    split; [done|]. unfold ToMap. by rewrite Hp.
  - destruct (kind_Struct_inv _ Hk) as [fs Hv]. split.
    + rewrite encodeStruct_eq, parse_elimPtr, (parse_collect p fl root fs Hv).
      destruct (collect _); simpl; [|done]. by rewrite composeKV_suppressed.
    + intros fs' Hv'. by apply parse_collect.
Qed.

Lemma C9_witness :
  let nilRoot := VPtr VInvalid in
  let root := VPtr (VStruct [(field "A" "a" "a", VInt KInt 1)]) in
  (kind (elimPtr nilRoot) ≠ Struct ∧
   parse pa noFlag nilRoot = Done ([], Some InvalidRoot)) ∧
  (kind (elimPtr (VString "x")) ≠ Struct ∧
   parse pa noFlag (VString "x") = Done ([], Some InvalidRoot)) ∧
  (kind (elimPtr root) = Struct ∧
   parse pa noFlag root
     = (encodeStruct pa noFlag (elimPtr root) "..." ≫= λ kvs, Done (kvs, None)) ∧
   parse pa noFlag root = Done ([mkKV "a" "1"], None)).
Proof.
  intros nilRoot root. split; [|split].
  - assert (kind (elimPtr nilRoot) ≠ Struct) as H by (by vm_compute).
    split; [done|]. by apply (C9_root_must_be_struct pa noFlag nilRoot).
  - assert (kind (elimPtr (VString "x")) ≠ Struct) as H by (by vm_compute).
    split; [done|]. by apply (C9_root_must_be_struct pa noFlag (VString "x")).
  - assert (kind (elimPtr root) = Struct) as H by (by vm_compute).
    split; [done|]. split; [|by vm_compute].
    by apply (C9_root_must_be_struct pa noFlag root).
Defined.

(** C6. A pointer field that is nil, behind any number of pointer layers,
    contributes no pair and no failure: the struct encodes as it would
    without the field.  [encode] too strips every pointer layer before it
    looks at the kind. *)
Theorem C6_absent_pointer_field p fl root fs1 f x fs2 :
  kind x = Ptr → elimPtr x = VInvalid →
  elimPtr root = VStruct (fs1 ++ (f, x) :: fs2) →
  fieldPairs p fl (f, x) = Done [] ∧
  parse p fl root = parse p fl (VStruct (fs1 ++ fs2)) ∧
  (∀ fl' n v tagK, encode p fl' (pointers n v) tagK = encode p fl' v tagK).
Proof.
  intros _ Hx Hroot.
  assert (fieldPairs p fl (f, x) = Done []) as Hfp.
  { rewrite fieldPairs_eq, Hx. reflexivity. }
  split; [done|]. split; [|intros; apply encode_pointers].
  rewrite (parse_collect p fl root _ Hroot).
  rewrite (parse_collect p fl (VStruct (fs1 ++ fs2)) (fs1 ++ fs2)) by done.
  rewrite !fmap_app, fmap_cons, !collect_app. simpl. rewrite Hfp. simpl.
  destruct (collect (fieldPairs p fl <$> fs1)); simpl; [|done].
  by destruct (collect (fieldPairs p fl <$> fs2)).
Qed.

Lemma C6_witness :
  let x := VPtr (VPtr VInvalid) in
  let A := (field "A" "a" "a", VInt KInt 1) in
  let B := (field "B" "a" "b", VString "BB") in
  let root := VPtr (VStruct ([A] ++ (field "P" "a" "p", x) :: [B])) in
  (kind x = Ptr ∧ elimPtr x = VInvalid) ∧
  parse pa noFlag root = parse pa noFlag (VStruct ([A] ++ [B])) ∧
  parse pa noFlag root = Done ([mkKV "a" "1"; mkKV "b" "BB"], None).
Proof.
  intros x A B root. split; [done|]. split; [|by vm_compute].
  by apply (C6_absent_pointer_field pa noFlag root [A] (field "P" "a" "p") x [B]).
Defined.
(** ** Tags, splitting and joining *)

Lemma Split_no_sep s sep :
  sep ∉ list_ascii_of_string s → Split s sep = [s].
Proof.
  induction s as [|c s IH]; simpl; [done|].
  intros Hin. apply not_elem_of_cons in Hin as [Hc Hs].
  rewrite decide_False by done. by rewrite IH.
Qed.

Lemma Split_sep name rest sep :
  sep ∉ list_ascii_of_string name →
  Split (name +:+ String.String sep rest) sep = name :: Split rest sep.
Proof.
  induction name as [|c name IH]; simpl.
  - intros _. by rewrite decide_True.
  - intros Hin. apply not_elem_of_cons in Hin as [Hc Hs].
    rewrite decide_False by done. by rewrite IH.
Qed.


Lemma joinTag_true tagList :
  tagList !! 1 = Some "join" → joinTag tagList = true.
Proof.
  intros H. unfold joinTag. apply andb_true_intro. split.
  - apply bool_decide_eq_true. by apply lookup_lt_Some in H.
  - by apply bool_decide_eq_true.
Qed.

Lemma assertBytes_inv v b :
  assertBytes v = Some b →
  ∃ xs, v = VSlice byteSeq xs ∧ mapM byteOf (sliceElems xs) = Some b.
Proof.
  destruct v as [| |[[] []] xs| | | | |]; simpl; try discriminate.
  eauto.
Qed.

Lemma assertStrings_inv v strList :
  assertStrings v = Some strList →
  ∃ xs, v = VSlice stringSeq xs ∧ mapM stringOf (sliceElems xs) = Some strList.
Proof.
  destruct v as [| |[[] []] xs| | | | |]; simpl; try discriminate.
  eauto.
Qed.

Lemma encode_bytes p fl v tagK b :
  flagRO fl = false → assertBytes (elimPtr v) = Some b →
  encode p fl v tagK = Done [mkKV tagK (base64.EncodeToString b)].
Proof.
  intros Hfl Hb. destruct (assertBytes_inv _ _ Hb) as (xs & Hv & _).
  rewrite encode_seq_ptr by (rewrite Hv; by left).
  fold (encodeSlice p fl (elimPtr v) tagK).
  rewrite encodeSlice_rw by (try done; rewrite Hv; by left).
  by rewrite Hb.
Qed.

Lemma encode_joined p fl v tagK strList :
  flagRO fl = false → assertStrings (elimPtr v) = Some strList →
  Split tagK ","%char !! 1 = Some "join" →
  encode p fl v tagK
    = Done [mkKV (default "" (Split tagK ","%char !! 0)) (Join strList ",")].
Proof.
  intros Hfl Hs Hj. destruct (assertStrings_inv _ _ Hs) as (xs & Hv & _).
  rewrite encode_seq_ptr by (rewrite Hv; by left).
  fold (encodeSlice p fl (elimPtr v) tagK).
  rewrite encodeSlice_rw by (try done; rewrite Hv; by left).
  assert (assertBytes (elimPtr v) = None) as -> by by rewrite Hv.
  by rewrite Hs, (joinTag_true _ Hj).
Qed.










(** ** ToMap *)

Lemma lastValue_snoc k kvs kv :
  lastValue k (kvs ++ [kv]) =
  if decide (K kv = k) then Some (V kv) else lastValue k kvs.
Proof.
  unfold lastValue. rewrite filter_app.
  destruct (decide (K kv = k)) as [Hk|Hk].
  - rewrite (filter_cons_True (λ kv, K kv = k)) by done.
    rewrite filter_nil, last_snoc. reflexivity.
  - rewrite (filter_cons_False (λ kv, K kv = k)) by done.
    by rewrite filter_nil, app_nil_r.
Qed.

Lemma lastValue_is_Some k kvs :
  is_Some (lastValue k kvs) ↔ ∃ kv, kv ∈ kvs ∧ K kv = k.
Proof.
  unfold lastValue. rewrite fmap_is_Some. split.
  - intros [kv Hkv]. apply last_Some_elem_of in Hkv.
    apply list_elem_of_filter in Hkv as [? ?]. eauto.
  - intros (kv & Hin & Hk).
    destruct (last (filter (λ kv, K kv = k) kvs)) eqn:Hl; [eauto|].
    apply last_None in Hl.
    assert (kv ∈ filter (λ kv, K kv = k) kvs) as Hf
      by by apply list_elem_of_filter.
    rewrite Hl in Hf. by apply elem_of_nil in Hf.
Qed.

Lemma foldl_insert_lookup (kvs : list KV) (m : gmap string string) k :
  foldl (λ m kv, <[K kv := V kv]> m) m kvs !! k =
  match lastValue k kvs with
  | Some v => Some v
  | None => m !! k
  end.
Proof.
  induction kvs as [|kv kvs IH] using rev_ind; [done|].
  rewrite foldl_app, lastValue_snoc. simpl.
  destruct (decide (K kv = k)) as [Hk|Hk].
  - by rewrite Hk, lookup_insert_eq.
  - by rewrite lookup_insert_ne.
Qed.

(** C8. When the encoding succeeds, [ToMap] returns the map that holds, for
    every key borne by some pair, the value of the last pair in order
    bearing it, and no other key; when the encoding fails, so does [ToMap],
    in the same way. *)
Theorem C8_ToMap_last_write_wins p fl root :
  (∀ kvs, parse p fl root = Done (kvs, None) →
     ∃ m : gmap string string,
       ToMap p fl root = Done (Some m, None) ∧
       m = foldl (λ m kv, <[K kv := V kv]> m) ∅ kvs ∧
       (∀ k, m !! k = lastValue k kvs) ∧
       (∀ k, is_Some (m !! k) ↔ ∃ kv, kv ∈ kvs ∧ K kv = k)) ∧
  (∀ kvs err, parse p fl root = Done (kvs, Some err) →
     ToMap p fl root = Done (None, Some err)) ∧
  (∀ pn, parse p fl root = Panicked pn → ToMap p fl root = Panicked pn).
Proof.
  split; [|split].
  - intros kvs Hp. eexists. split; [|split; [reflexivity|]].
    { unfold ToMap. rewrite Hp. reflexivity. }
    assert (∀ k, foldl (λ m kv, <[K kv := V kv]> m) (∅ : gmap string string) kvs !! k
                 = lastValue k kvs) as Hl.
    { intros k. rewrite foldl_insert_lookup, lookup_empty.
      by destruct (lastValue k kvs). }
    split; [done|]. intros k. rewrite Hl. apply lastValue_is_Some.
  - intros kvs err Hp. unfold ToMap. by rewrite Hp.
  - intros pn Hp. unfold ToMap. by rewrite Hp.
Qed.

(** Two fields under the same key: the later one is kept. *)
Lemma C8_witness :
  let root := VStruct [(field "A" "a" "k", VString "first");
                       (field "B" "a" "b", VInt KInt 7);
                       (field "C" "a" "k", VString "last")] in
  let kvs := [mkKV "k" "first"; mkKV "b" "7"; mkKV "k" "last"] in
  parse pa noFlag root = Done (kvs, None) ∧
  ∃ m : gmap string string,
    ToMap pa noFlag root = Done (Some m, None) ∧
    m !! "k" = Some "last" ∧ m !! "b" = Some "7" ∧ m !! "a" = None.
Proof.
  intros root kvs.
  assert (parse pa noFlag root = Done (kvs, None)) as Hp by (by vm_compute).
  split; [done|].
  destruct (proj1 (C8_ToMap_last_write_wins pa noFlag root) kvs Hp)
    as (m & Hm & _ & Hl & _).
  exists m. split; [done|]. rewrite !Hl. by vm_compute.
Defined.

(** ** Failures *)

Lemma elem_of_imap_encode p fl (key : nat → string) xs r :
  r ∈ imap (λ i x, encode p fl x (key i)) xs →
  ∃ i x, x ∈ xs ∧ r = encode p fl x (key i).
Proof.
  intros Hin. apply list_elem_of_lookup in Hin as [i Hi].
  rewrite list_lookup_imap in Hi.
  destruct (xs !! i) as [x|] eqn:Hx; [|discriminate].
  injection Hi as <-. exists i, x. split; [|done].
  by eapply list_elem_of_lookup_2.
Qed.

Lemma imap_encode_elem_of p fl (key : nat → string) xs x :
  x ∈ xs → ∃ i, encode p fl x (key i) ∈ imap (λ i x, encode p fl x (key i)) xs.
Proof.
  intros Hin. apply list_elem_of_lookup in Hin as [i Hi]. exists i.
  apply list_elem_of_lookup. exists i. by rewrite list_lookup_imap, Hi.
Qed.

Lemma mapM_elem_of {A} (g : value → option A) xs ys x :
  mapM g xs = Some ys → x ∈ xs → ∃ y, g x = Some y.
Proof.
  intros Hm Hx. apply mapM_Some in Hm.
  apply list_elem_of_lookup in Hx as [i Hi].
  destruct (Forall2_lookup_l _ _ _ _ _ Hm Hi) as (y & _ & Hy). eauto.
Qed.

(** A scalar of a predeclared type that may be read encodes to its pair. *)
Lemma encode_predeclared p fl s tagK :
  flagRO fl = false →
  encode p fl (VScalar false s) tagK = Done [mkKV tagK (textOfScalar s)].
Proof.
  intros Hfl. rewrite encode_eq.
  destruct s as [b|[] z|[] z|[] t|[] t|s]; simpl;
    unfold encodeBool, encodeInt, encodeInt8, encodeInt16, encodeInt32,
      encodeInt64, encodeUint, encodeUint8, encodeUint16, encodeUint32,
      encodeUint64, encodeFloat32, encodeFloat64, encodeComplex64,
      encodeComplex128, encodeString; simpl; by rewrite Hfl.
Qed.

(** A scalar of a defined type fails the type assertion of its encoder. *)
Lemma encode_defined p fl s tagK :
  flagRO fl = false →
  encode p fl (VScalar true s) tagK = Panicked InterfaceConversion.
Proof.
  intros Hfl. rewrite encode_eq.
  destruct s as [b|[] z|[] z|[] t|[] t|s]; simpl;
    unfold encodeBool, encodeInt, encodeInt8, encodeInt16, encodeInt32,
      encodeInt64, encodeUint, encodeUint8, encodeUint16, encodeUint32,
      encodeUint64, encodeFloat32, encodeFloat64, encodeComplex64,
      encodeComplex128, encodeString; simpl; by rewrite Hfl.
Qed.

(** A scalar read through an unexported field makes [Interface] panic. *)
Lemma encode_scalar_ro p fl named s tagK :
  flagRO fl = true →
  encode p fl (VScalar named s) tagK = Panicked InterfaceRO.
Proof.
  intros Hfl. rewrite encode_eq.
  destruct s as [b|[] z|[] z|[] t|[] t|s]; simpl;
    unfold encodeBool, encodeInt, encodeInt8, encodeInt16, encodeInt32,
      encodeInt64, encodeUint, encodeUint8, encodeUint16, encodeUint32,
      encodeUint64, encodeFloat32, encodeFloat64, encodeComplex64,
      encodeComplex128, encodeString; simpl; by rewrite Hfl.
Qed.

(** A value in reach without encoder makes every encoding panic, whatever
    the flag. *)
Lemma reaches_panics p v :
  reaches p v → ∀ fl tagK, ∃ pn, encode p fl v tagK = Panicked pn.
Proof.
  induction 1 as [v Hv|v x Hx _ IH|v fs f x Hv Hx Hk Hd _ IH
                 |v es k e Hv Hx _ IH|v es k e Hv Hx _ IH]; intros fl tagK.
  - rewrite encode_eq. simpl. rewrite Hv. eauto.
  - assert (kind (elimPtr v) = Slice ∨ kind (elimPtr v) = Array) as Hk.
    { destruct (elimPtr v); simpl in Hx; try (by apply elem_of_nil in Hx); auto. }
    rewrite encode_seq_ptr by done. fold (encodeSlice p fl (elimPtr v) tagK).
    destruct (flagRO fl) eqn:Hfl.
    { rewrite encodeSlice_ro by done. eauto. }
    assert (assertBytes (elimPtr v) = None) as Hb.
    { destruct (assertBytes (elimPtr v)) as [b|] eqn:Hb; [|done].
      destruct (assertBytes_inv _ _ Hb) as (xs & Hw & Hm).
      rewrite Hw in Hx. simpl in Hx.
      destruct (mapM_elem_of _ _ _ x Hm Hx) as [y Hy].
      destruct (IH noFlag "") as [pn Hpn].
      destruct x as [|[] s| | | | | |]; try discriminate Hy.
      by rewrite encode_predeclared in Hpn. }
    assert (assertStrings (elimPtr v) = None) as Hs.
    { destruct (assertStrings (elimPtr v)) as [s|] eqn:Hs; [|done].
      destruct (assertStrings_inv _ _ Hs) as (xs & Hw & Hm).
      rewrite Hw in Hx. simpl in Hx.
      destruct (mapM_elem_of _ _ _ x Hm Hx) as [y Hy].
      destruct (IH noFlag "") as [pn Hpn].
      destruct x as [|[] s'| | | | | |]; try discriminate Hy.
      by rewrite encode_predeclared in Hpn. }
    rewrite encodeSlice_rw by done. rewrite Hb, Hs.
    rewrite encodeIndexed_collect by done.
    destruct (imap_encode_elem_of p (ro fl) (λ i, tagK +:+ "." +:+ Itoa i) _ x Hx)
      as [i Hi].
    eapply collect_panics; [exact Hi|]. apply IH.
  - rewrite encode_struct by by rewrite Hv.
    rewrite (parse_collect p fl v fs Hv).
    destruct (collect_panics (fieldPairs p fl <$> fs) (fieldPairs p fl (f, x)))
      as [pn ->]; [by apply list_elem_of_fmap_2| |simpl; eauto].
    rewrite (fieldPairs_kept p fl f x (fieldTag p f).1); [apply IH|done|].
    destruct (fieldTag p f); simpl in *; by subst.
  - rewrite <- encode_elimPtr, Hv, encode_map.
    eapply collect_panics; [by apply (list_elem_of_fmap_2 _ _ (k, e))|].
    rewrite entryPairs_eq. destruct (IH (ro fl) "") as [pn ->]. simpl. eauto.
  - rewrite <- encode_elimPtr, Hv, encode_map.
    eapply collect_panics; [by apply (list_elem_of_fmap_2 _ _ (k, e))|].
    rewrite entryPairs_eq. destruct (IH (ro fl) "") as [pn ->].
    destruct (encode p (ro fl) k ""); simpl; eauto.
Qed.

Lemma plain_fields fs f x :
  plain (VStruct fs) = true → (f, x) ∈ fs → IsExported f = true ∧ plain x = true.
Proof.
  simpl. intros Hp Hin. rewrite forallb_forall in Hp.
  apply list_elem_of_In in Hin. specialize (Hp _ Hin). simpl in Hp.
  by apply andb_true_iff in Hp.
Qed.

Lemma plain_entries es k e :
  plain (VMap es) = true → (k, e) ∈ es → plain k = true ∧ plain e = true.
Proof.
  simpl. intros Hp Hin. rewrite forallb_forall in Hp.
  apply list_elem_of_In in Hin. specialize (Hp _ Hin). simpl in Hp.
  by apply andb_true_iff in Hp.
Qed.

Lemma plain_elems v x :
  plain v = true → x ∈ seqElems v → plain x = true.
Proof.
  intros Hp Hin.
  destruct v as [| |t [xs|]|t xs| | | |]; simpl in *;
    try (by apply elem_of_nil in Hin);
    rewrite forallb_forall in Hp; apply Hp; by apply list_elem_of_In.
Qed.

Lemma flagRO_sticky fl : flagRO fl = false → flagStickyRO fl = false.
Proof. unfold flagRO. by intros [? _]%orb_false_iff. Qed.

(** On a plain value that may be read, the only panic of an encoding is the
    one of [encode] itself, for a kind without encoder. *)
Lemma encode_panic_kind p v :
  plain v = true →
  ∀ fl tagK pn, flagRO fl = false → encode p fl v tagK = Panicked pn →
                ∃ k, pn = UnknownType k ∧ encoders p k = None.
Proof.
  induction v as [|named s|t xs IH|t xs IH|fs IH|es IH|e IH|k]
    using value_ind_nested; intros Hpl fl tagK pn Hfl.
  - by rewrite encode_eq.
  - destruct named; [discriminate|]. by rewrite encode_predeclared.
  - rewrite (encode_seq p fl (VSlice t xs)) by by left.
    rewrite encodeSlice_rw by (try done; by left).
    destruct (assertBytes _); [discriminate|].
    assert (encodeIndexed (encode p) fl (VSlice t xs) tagK = Panicked pn →
            ∃ k, pn = UnknownType k ∧ encoders p k = None) as Hidx.
    { rewrite encodeIndexed_collect by by left. intros Hc.
      apply collect_inv_Panicked, elem_of_imap_encode in Hc as (i & x & Hx & Hpn).
      rewrite Forall_forall in IH.
      eapply (IH x Hx); [by eapply (plain_elems (VSlice t xs))| |done].
      by rewrite flagRO_ro. }
    destruct (assertStrings _); [destruct (joinTag _); [discriminate|]|]; done.
  - rewrite (encode_seq p fl (VArray t xs)) by by right.
    rewrite encodeSlice_rw by (try done; by right).
    cbn [assertBytes assertStrings].
    rewrite encodeIndexed_collect by by right. intros Hc.
    apply collect_inv_Panicked, elem_of_imap_encode in Hc as (i & x & Hx & Hpn).
    rewrite Forall_forall in IH.
    eapply (IH x Hx); [by eapply (plain_elems (VArray t xs))| |done].
    by rewrite flagRO_ro.
  - rewrite encode_struct by done.
    rewrite (parse_collect p fl (VStruct fs) fs) by done.
    destruct (collect (fieldPairs p fl <$> fs)) as [r|pn'] eqn:Hc; [discriminate|].
    simpl. intros [= ->].
    apply collect_inv_Panicked, list_elem_of_fmap in Hc as ([f x] & Hpn & Hx).
    rewrite fieldPairs_eq in Hpn.
    destruct (decide _); [discriminate|]. destruct (fieldTag p f).2; [discriminate|].
    rewrite encode_elimPtr in Hpn.
    destruct (plain_fields fs f x Hpl Hx) as [Hex Hpx].
    rewrite Forall_forall in IH.
    eapply (IH (f, x) Hx); [done| |done].
    apply field_readable; [by apply flagRO_sticky|done].
  - rewrite encode_map. intros Hc.
    apply collect_inv_Panicked, list_elem_of_fmap in Hc as ([k e] & Hpn & Hx).
    rewrite Forall_forall in IH. destruct (IH (k, e) Hx) as [IHk IHe].
    destruct (plain_entries es k e Hpl Hx) as [Hpk Hpe].
    rewrite entryPairs_eq in Hpn. symmetry in Hpn.
    assert (flagRO (ro fl) = false) as Hro by by rewrite flagRO_ro.
    apply bind_inv_Panicked in Hpn as [Hpn|(keyPair & _ & Hpn)];
      [by eapply IHk|].
    apply bind_inv_Panicked in Hpn as [Hpn|(valPair & _ & Hpn)];
      [by eapply IHe|].
    discriminate.
  - rewrite encode_VPtr. by apply IH.
  - rewrite encode_eq. simpl. destruct k; intros [= <-]; eauto.
Qed.

Lemma parse_encode_struct p fl v :
  kind (elimPtr v) = Struct →
  (∀ pn, parse p fl v = Panicked pn ↔ encode p fl v "" = Panicked pn) ∧
  (∀ kvs o, parse p fl v = Done (kvs, o) → o = None).
Proof.
  intros Hk. destruct (kind_Struct_inv _ Hk) as [fs Hv].
  rewrite (encode_struct p fl v "" Hk), (parse_collect p fl v fs Hv).
  destruct (collect _) as [r|pn']; simpl; split.
  - intros pn. split; discriminate.
  - by intros kvs o [= _ <-].
  - intros pn. split; intros [= ->]; reflexivity.
  - discriminate.
Qed.

(** C5, as stated, fails: a value traversed before the one without encoder
    can panic first, in another way.  Here a field of a defined integer
    type comes before a function-typed field: the call ends in the failed
    type assertion of [encodeInt], not in "Unknown type". *)
Lemma C5_counterexample :
  let root := VStruct [(field "N" "a" "n", VScalar true (SInt KInt 1));
                       (field "F" "a" "f", VOpaque KFunc)] in
  reaches pa root ∧
  parse pa noFlag root = Panicked InterfaceConversion ∧
  ∀ k, parse pa noFlag root ≠ Panicked (UnknownType k).
Proof.
  intros root. split; [|split].
  - apply (reaches_field pa root _ (field "F" "a" "f") (VOpaque KFunc) eq_refl).
    + apply list_elem_of_further, list_elem_of_here.
    + discriminate.
    + reflexivity.
    + by apply reaches_here.
  - by vm_compute.
  - intros k. by vm_compute.
Qed.

(** C5, amended.  A value of a kind without encoder, anywhere in reach of
    the encoding, makes the whole call end in a panic: [encode], [parse]
    and [ToMap] return nothing, no pairs and no error value.  When every
    scalar of the value has the predeclared type of its kind, every struct
    field is exported and the value may be read, the panic is "Unknown
    type" for a kind without encoder. *)
Theorem C5_unsupported_kind_aborts p v :
  reaches p v →
  (∀ fl tagK, ∃ pn, encode p fl v tagK = Panicked pn) ∧
  (kind (elimPtr v) = Struct →
   ∀ fl, ∃ pn, parse p fl v = Panicked pn ∧ ToMap p fl v = Panicked pn) ∧
  (plain v = true → ∀ fl, flagRO fl = false →
   (∀ tagK, ∃ k, encoders p k = None ∧
                 encode p fl v tagK = Panicked (UnknownType k)) ∧
   (kind (elimPtr v) = Struct →
    ∃ k, encoders p k = None ∧
         parse p fl v = Panicked (UnknownType k) ∧
         ToMap p fl v = Panicked (UnknownType k))).
Proof.
  intros Hr.
  assert (∀ fl, kind (elimPtr v) = Struct →
                ∀ pn, encode p fl v "" = Panicked pn →
                      parse p fl v = Panicked pn ∧ ToMap p fl v = Panicked pn)
    as Hparse.
  { intros fl Hs pn Hpn.
    apply (proj1 (parse_encode_struct p fl v Hs)) in Hpn.
    split; [done|]. unfold ToMap. by rewrite Hpn. }
  split; [by apply reaches_panics|]. split.
  - intros Hs fl. destruct (reaches_panics p v Hr fl "") as [pn Hpn].
    exists pn. by apply Hparse.
  - intros Hpl fl Hfl.
    assert (∀ tagK, ∃ k, encoders p k = None ∧
                         encode p fl v tagK = Panicked (UnknownType k)) as He.
    { intros tagK. destruct (reaches_panics p v Hr fl tagK) as [pn Hpn].
      destruct (encode_panic_kind p v Hpl fl tagK pn Hfl Hpn) as (k & -> & Hk).
      eauto. }
    split; [done|]. intros Hs. destruct (He "") as (k & Hk & Hpn).
    exists k. split; [done|]. by apply Hparse.
Qed.

(** A struct with a function-typed field, after a field that alone would
    encode. *)
Lemma C5_witness :
  let root := VStruct [(field "A" "a" "a", VInt KInt 1);
                       (field "F" "a" "f", VOpaque KFunc)] in
  (reaches pa root ∧ kind (elimPtr root) = Struct ∧ plain root = true ∧
   flagRO noFlag = false) ∧
  (∃ k, encoders pa k = None ∧
        parse pa noFlag root = Panicked (UnknownType k) ∧
        ToMap pa noFlag root = Panicked (UnknownType k)) ∧
  parse pa noFlag root = Panicked (UnknownType Func).
Proof.
  intros root.
  assert (reaches pa root) as Hr.
  { apply (reaches_field pa root _ (field "F" "a" "f") (VOpaque KFunc) eq_refl).
    - apply list_elem_of_further, list_elem_of_here.
    - discriminate.
    - reflexivity.
    - by apply reaches_here. }
  split; [done|]. split; [|by vm_compute].
  by apply (proj2 (proj2 (C5_unsupported_kind_aborts pa root Hr)) eq_refl
              noFlag eq_refl).
Defined.

(** * Further properties of the parser *)

(** ** Construction and tags *)

(** X1. A parser that [New] returns has a non-empty tag name and a
    non-empty ignore marker; so a field without a tag under that name is
    never dropped, it is kept under its declared name, and a field is
    dropped exactly when its tag is the ignore marker. *)
Theorem New_parser_tags t ig p f :
  New t ig = Done p →
  (tag p = t ∧ ignoreFlag p = ig ∧ t ≠ "" ∧ ig ≠ "") ∧
  (Get (Tag f) (tag p) = "" → fieldTag p f = (Name f, false)) ∧
  ((fieldTag p f).2 = true ↔ Get (Tag f) (tag p) = ignoreFlag p) ∧
  ((fieldTag p f).2 = false → Get (Tag f) (tag p) ≠ "" →
   (fieldTag p f).1 = Get (Tag f) (tag p)).
Proof.
  unfold New. intros HN.
  destruct (decide (String.length t ≤ 0)%nat) as [|Ht]; [discriminate|].
  destruct (decide (String.length ig ≤ 0)%nat) as [|Hig]; [discriminate|].
  injection HN as <-. simpl.
  assert (t ≠ "") as Ht' by (intros ->; simpl in Ht; lia).
  assert (ig ≠ "") as Hig' by (intros ->; simpl in Hig; lia).
  split; [done|]. unfold fieldTag. simpl.
  destruct (decide (Get (Tag f) t = ig)) as [He|He]; simpl.
  - split; [intros H0; congruence|]. split; [done|]. discriminate.
  - destruct (decide (Get (Tag f) t = "")) as [H0|H0]; simpl.
    + split; [done|]. split; [split; [discriminate|done]|]. done.
    + split; [done|]. split; [split; [discriminate|done]|]. done.
Qed.

Lemma New_parser_tags_witness :
  let f := {| Name := "Plain"; PkgPath := ""; Tag := [("json", "plain")];
              Anonymous := false |} in
  New "zwf" "-" = Done {| tag := "zwf"; ignoreFlag := "-" |} ∧
  fieldTag {| tag := "zwf"; ignoreFlag := "-" |} f = ("Plain", false).
Proof.
  intros f. split; [reflexivity|].
  by apply (New_parser_tags "zwf" "-" {| tag := "zwf"; ignoreFlag := "-" |}
              f eq_refl).
Defined.

(** X2. A field whose tag is the ignore marker contributes nothing and can
    make nothing fail, whatever it holds, a value without encoder
    included, and whether it is exported or not: the struct parses as it
    would without the field. *)
Theorem dropped_field_is_skipped p fl root fs1 f x fs2 :
  Get (Tag f) (tag p) = ignoreFlag p →
  elimPtr root = VStruct (fs1 ++ (f, x) :: fs2) →
  fieldPairs p fl (f, x) = Done [] ∧
  parse p fl root = parse p fl (VStruct (fs1 ++ fs2)) ∧
  ToMap p fl root = ToMap p fl (VStruct (fs1 ++ fs2)).
Proof.
  intros Hf Hroot.
  assert (fieldPairs p fl (f, x) = Done []) as Hfp.
  { rewrite fieldPairs_eq. destruct (decide _); [done|].
    unfold fieldTag. by rewrite decide_True. }
  assert (parse p fl root = parse p fl (VStruct (fs1 ++ fs2))) as Hp.
  { rewrite (parse_collect p fl root _ Hroot).
    rewrite (parse_collect p fl (VStruct (fs1 ++ fs2)) (fs1 ++ fs2)) by done.
    rewrite !fmap_app, fmap_cons, !collect_app. simpl. rewrite Hfp. simpl.
    destruct (collect (fieldPairs p fl <$> fs1)); simpl; [|done].
    by destruct (collect (fieldPairs p fl <$> fs2)). }
  split; [done|]. split; [done|]. unfold ToMap. by rewrite Hp.
Qed.

Lemma dropped_field_is_skipped_witness :
  let A := (field "A" "a" "a", VInt KInt 1) in
  let F := field "F" "a" "-" in
  let root := VStruct ([A] ++ (F, VOpaque KFunc) :: []) in
  Get (Tag F) (tag pa) = ignoreFlag pa ∧
  parse pa noFlag root = parse pa noFlag (VStruct ([A] ++ [])) ∧
  parse pa noFlag root = Done ([mkKV "a" "1"], None).
Proof.
  intros A F root. split; [done|]. split; [|by vm_compute].
  by apply (dropped_field_is_skipped pa noFlag root [A] F (VOpaque KFunc) []).
Defined.

(** ** The root *)

(** X3. [parse] returns an error only for a root that is no struct behind
    its pointers; the error is then [InvalidRoot], with no pairs, and
    [ToMap] returns it with no map.  A struct root never yields an error
    value. *)
Theorem parse_error_only_for_non_struct p fl root kvs err :
  parse p fl root = Done (kvs, Some err) →
  kvs = [] ∧ err = InvalidRoot ∧ kind (elimPtr root) ≠ Struct ∧
  ToMap p fl root = Done (None, Some InvalidRoot).
Proof.
  intros Hp.
  destruct (decide (kind (elimPtr root) = Struct)) as [Hk|Hk].
  - destruct (kind_Struct_inv _ Hk) as [fs Hv].
    rewrite (parse_collect p fl root fs Hv) in Hp.
    destruct (collect _); discriminate.
  - rewrite (parse_not_struct p fl root Hk) in Hp. injection Hp as <- <-.
    split; [done|]. split; [done|]. split; [done|].
    unfold ToMap. by rewrite (parse_not_struct p fl root Hk).
Qed.

Lemma parse_error_only_for_non_struct_witness :
  let root := VPtr (VSlice otherSeq (Some [VInt KInt 1])) in
  parse pa noFlag root = Done ([], Some InvalidRoot) ∧
  kind (elimPtr root) ≠ Struct ∧
  ToMap pa noFlag root = Done (None, Some InvalidRoot).
Proof.
  intros root.
  assert (parse pa noFlag root = Done ([], Some InvalidRoot)) as Hp
    by (by vm_compute).
  split; [done|].
  by apply (parse_error_only_for_non_struct pa noFlag root [] InvalidRoot Hp).
Defined.

(** X4. The root may stand behind any number of pointers: [parse] and
    [ToMap] give what they give for the value pointed to. *)
Theorem root_pointers_are_transparent p fl n v :
  parse p fl (pointers n v) = parse p fl v ∧
  ToMap p fl (pointers n v) = ToMap p fl v.
Proof.
  assert (parse p fl (pointers n v) = parse p fl v) as Hp.
  { by rewrite <- parse_elimPtr, elimPtr_pointers, parse_elimPtr. }
  split; [done|]. unfold ToMap. by rewrite Hp.
Qed.

(** ** Failures, exactly *)

Lemma reaches_VPtr p e : reaches p e → reaches p (VPtr e).
Proof.
  intros H. destruct H as [v Hv|v x Hx Hr|v fs f x Hv Hx Hk Hd Hr
                          |v es k e' Hv Hx Hr|v es k e' Hv Hx Hr].
  - by apply reaches_here.
  - by apply (reaches_elem p (VPtr v) x).
  - by apply (reaches_field p (VPtr v) fs f x).
  - by apply (reaches_key p (VPtr v) es k e').
  - by apply (reaches_val p (VPtr v) es k e').
Qed.

(** X5. On a value whose scalars all have the predeclared type of their
    kind, whose struct fields are all exported, and which may be read, the
    one panic of the parser is "Unknown type", raised by [encode] for a kind
    without encoder.  The panic of [encodeStruct] on a failed inner parse, a
    failed type assertion in an encoder, a reflection call on a value of the
    wrong kind: none of them happens, in [encode], in [parse] or in
    [ToMap]. *)
Theorem unknown_type_is_the_only_panic p fl v pn :
  plain v = true → flagRO fl = false →
  (∀ tagK, encode p fl v tagK = Panicked pn →
           ∃ k, pn = UnknownType k ∧ encoders p k = None) ∧
  (parse p fl v = Panicked pn → ∃ k, pn = UnknownType k ∧ encoders p k = None) ∧
  (ToMap p fl v = Panicked pn → ∃ k, pn = UnknownType k ∧ encoders p k = None).
Proof.
  intros Hpl Hfl.
  assert (parse p fl v = Panicked pn →
          ∃ k, pn = UnknownType k ∧ encoders p k = None) as Hparse.
  { intros Hp.
    destruct (decide (kind (elimPtr v) = Struct)) as [Hk|Hk].
    - apply (encode_panic_kind p v Hpl fl "" pn Hfl).
      by apply (proj1 (parse_encode_struct p fl v Hk)).
    - by rewrite (parse_not_struct p fl v Hk) in Hp. }
  split; [intros tagK; by apply encode_panic_kind|]. split; [done|].
  unfold ToMap. destruct (parse p fl v) as [[kvs [err|]]|pn']; simpl; try done.
  intros [= ->]. by apply Hparse.
Qed.

Lemma unknown_type_is_the_only_panic_witness :
  let root := VStruct [(field "C" "a" "c", VPtr (VOpaque KChan))] in
  (plain root = true ∧ flagRO noFlag = false) ∧
  parse pa noFlag root = Panicked (UnknownType Chan) ∧
  ∃ k, UnknownType Chan = UnknownType k ∧ encoders pa k = None.
Proof.
  intros root. split; [done|].
  assert (parse pa noFlag root = Panicked (UnknownType Chan)) as Hp
    by (by vm_compute).
  split; [done|].
  destruct (unknown_type_is_the_only_panic pa noFlag root (UnknownType Chan)
              eq_refl eq_refl) as (_ & H & _).
  by apply H.
Defined.

Lemma encode_panics_reaches p v :
  plain v = true →
  ∀ fl tagK pn, flagRO fl = false → encode p fl v tagK = Panicked pn →
                reaches p v.
Proof.
  induction v as [|named s|t xs IH|t xs IH|fs IH|es IH|e IH|k]
    using value_ind_nested; intros Hpl fl tagK pn Hfl.
  - by rewrite encode_eq.
  - destruct named; [discriminate|]. by rewrite encode_predeclared.
  - rewrite (encode_seq p fl (VSlice t xs)) by by left.
    rewrite encodeSlice_rw by (try done; by left).
    destruct (assertBytes _); [discriminate|].
    assert (encodeIndexed (encode p) fl (VSlice t xs) tagK = Panicked pn →
            reaches p (VSlice t xs)) as Hidx.
    { rewrite encodeIndexed_collect by by left. intros Hc.
      apply collect_inv_Panicked, elem_of_imap_encode in Hc as (i & x & Hx & Hpn).
      rewrite Forall_forall in IH.
      apply (reaches_elem p (VSlice t xs) x Hx).
      eapply (IH x Hx); [by eapply (plain_elems (VSlice t xs))| |done].
      by rewrite flagRO_ro. }
    destruct (assertStrings _); [destruct (joinTag _); [discriminate|]|]; done.
  - rewrite (encode_seq p fl (VArray t xs)) by by right.
    rewrite encodeSlice_rw by (try done; by right).
    cbn [assertBytes assertStrings].
    rewrite encodeIndexed_collect by by right. intros Hc.
    apply collect_inv_Panicked, elem_of_imap_encode in Hc as (i & x & Hx & Hpn).
    rewrite Forall_forall in IH.
    apply (reaches_elem p (VArray t xs) x Hx).
    eapply (IH x Hx); [by eapply (plain_elems (VArray t xs))| |done].
    by rewrite flagRO_ro.
  - rewrite encode_struct by done.
    rewrite (parse_collect p fl (VStruct fs) fs) by done.
    destruct (collect (fieldPairs p fl <$> fs)) as [r|pn'] eqn:Hc; [discriminate|].
    simpl. intros [= ->].
    apply collect_inv_Panicked, list_elem_of_fmap in Hc as ([f x] & Hpn & Hx).
    rewrite fieldPairs_eq in Hpn.
    destruct (decide _) as [|Hk]; [discriminate|].
    destruct (fieldTag p f).2 eqn:Hd; [discriminate|].
    rewrite encode_elimPtr in Hpn.
    destruct (plain_fields fs f x Hpl Hx) as [Hex Hpx].
    rewrite Forall_forall in IH.
    apply (reaches_field p (VStruct fs) fs f x eq_refl Hx Hk Hd).
    eapply (IH (f, x) Hx); [done| |done].
    apply field_readable; [by apply flagRO_sticky|done].
  - rewrite encode_map. intros Hc.
    apply collect_inv_Panicked, list_elem_of_fmap in Hc as ([k e] & Hpn & Hx).
    rewrite Forall_forall in IH. destruct (IH (k, e) Hx) as [IHk IHe].
    destruct (plain_entries es k e Hpl Hx) as [Hpk Hpe].
    assert (flagRO (ro fl) = false) as Hro by by rewrite flagRO_ro.
    rewrite entryPairs_eq in Hpn. symmetry in Hpn.
    apply bind_inv_Panicked in Hpn as [Hpn|(keyPair & _ & Hpn)].
    { apply (reaches_key p (VMap es) es k e eq_refl Hx). by eapply IHk. }
    apply bind_inv_Panicked in Hpn as [Hpn|(valPair & _ & Hpn)]; [|discriminate].
    apply (reaches_val p (VMap es) es k e eq_refl Hx). by eapply IHe.
  - rewrite encode_VPtr. intros He. apply reaches_VPtr. by eapply IH.
  - intros _. apply reaches_here. by destruct k.
Qed.

(** X6. On a value whose scalars all have the predeclared type of their
    kind, whose struct fields are all exported, and which may be read, an
    encoding fails exactly when a value without encoder is in its reach;
    otherwise it returns its pairs.  A value without encoder that lies in a
    dropped field, behind a nil pointer or nowhere at all makes nothing
    fail. *)
Theorem encode_fails_iff_reaches p fl v tagK :
  plain v = true → flagRO fl = false →
  ((∃ pn, encode p fl v tagK = Panicked pn) ↔ reaches p v) ∧
  ((∃ kvs, encode p fl v tagK = Done kvs) ↔ ¬ reaches p v) ∧
  (kind (elimPtr v) = Struct →
   ((∃ kvs, parse p fl v = Done (kvs, None)) ↔ ¬ reaches p v)).
Proof.
  intros Hpl Hfl.
  assert ((∃ pn, encode p fl v tagK = Panicked pn) ↔ reaches p v) as Hfail.
  { split; [intros [pn Hpn]; by eapply encode_panics_reaches|].
    intros Hr. by apply reaches_panics. }
  assert (∀ tagK', (∃ kvs, encode p fl v tagK' = Done kvs) ↔ ¬ reaches p v)
    as Hok.
  { intros tagK'. split.
    - intros [kvs Hkvs] Hr.
      destruct (reaches_panics p v Hr fl tagK') as [pn Hpn]. congruence.
    - intros Hr. destruct (encode p fl v tagK') as [kvs|pn] eqn:He; [eauto|].
      destruct Hr. by eapply encode_panics_reaches. }
  split; [done|]. split; [done|]. intros Hk.
  rewrite <- (Hok ""). destruct (parse_encode_struct p fl v Hk) as [Hpn Hnone].
  split.
  - intros [kvs Hp]. destruct (encode p fl v "") as [r|pn] eqn:He; [eauto|].
    destruct (Hpn pn) as [_ H]. specialize (H eq_refl). congruence.
  - intros [r He]. destruct (parse p fl v) as [[kvs o]|pn] eqn:Hp.
    + rewrite (Hnone kvs o eq_refl). eauto.
    + destruct (Hpn pn) as [H _]. specialize (H eq_refl). congruence.
Qed.

Lemma encode_fails_iff_reaches_witness :
  let root := VStruct [(field "A" "a" "a", VInt KInt 1);
                       (field "F" "a" "-", VOpaque KFunc);
                       (field "G" "a" "g", VPtr VInvalid)] in
  (plain root = true ∧ flagRO noFlag = false ∧ kind (elimPtr root) = Struct) ∧
  (∃ kvs, parse pa noFlag root = Done (kvs, None)) ∧ ¬ reaches pa root.
Proof.
  intros root. split; [done|].
  assert (∃ kvs, parse pa noFlag root = Done (kvs, None)) as Hp
    by (eexists; by vm_compute).
  split; [done|].
  by apply (proj2 (proj2 (encode_fails_iff_reaches pa noFlag root ""
                            eq_refl eq_refl)) eq_refl).
Defined.

(** Outside these values an encoding fails with nothing without encoder in
    reach: on a defined scalar type, and on an unexported field. *)
Example failures_without_unknown_kind :
  let defined := VStruct [(field "N" "a" "n", VScalar true (SInt KInt 1))] in
  let unexported := VStruct [(field "n" "a" "n", VInt KInt 1)] in
  (¬ reaches pa defined ∧ parse pa noFlag defined = Panicked InterfaceConversion) ∧
  (¬ reaches pa unexported ∧ parse pa noFlag unexported = Panicked InterfaceRO).
Proof.
  intros defined unexported.
  assert (∀ f x, ¬ reaches pa (VScalar f x)) as Hs.
  { intros f x H. inversion H as [v Hv|v y Hy _|v fs g y Hv|v es k e Hv|v es k e Hv];
      subst; try discriminate.
    - by destruct x as [|[]|[]|[]|[]|].
    - by apply elem_of_nil in Hy. }
  split; (split; [|by vm_compute]).
  - intros H. inversion H as [v Hv|v y Hy _|v fs g y Hv Hy _ _ Hr|v es k e Hv|v es k e Hv];
      subst; try discriminate.
    + by apply elem_of_nil in Hy.
    + injection Hv as <-. apply list_elem_of_singleton in Hy. injection Hy as -> ->.
      by apply Hs in Hr.
  - intros H. inversion H as [v Hv|v y Hy _|v fs g y Hv Hy _ _ Hr|v es k e Hv|v es k e Hv];
      subst; try discriminate.
    + by apply elem_of_nil in Hy.
    + injection Hv as <-. apply list_elem_of_singleton in Hy. injection Hy as -> ->.
      by apply Hs in Hr.
Qed.

(** ** Scalars *)

Lemma encode_scalar p fl v tagK s :
  flagRO fl = false →
  scalarText (elimPtr v) = Some s → encode p fl v tagK = Done [mkKV tagK s].
Proof.
  intros Hfl Hs. rewrite <- encode_elimPtr.
  destruct (elimPtr v) as [|[] s'| | | | | |]; try discriminate.
  injection Hs as <-. by apply encode_predeclared.
Qed.





(** X8. The text of an integer determines the integer: two different
    integers of one predeclared kind, read from where they may be read,
    never encode alike under a key. *)
Theorem integer_text_is_faithful p fl tagK z1 z2 :
  flagRO fl = false →
  z1 ≠ z2 →
  (∀ k, encode p fl (VInt k z1) tagK ≠ encode p fl (VInt k z2) tagK) ∧
  (∀ k, encode p fl (VUint k z1) tagK ≠ encode p fl (VUint k z2) tagK).
Proof.
  intros Hfl Hne. split; intros k.
  - rewrite (encode_scalar p fl (VInt k z1) tagK (FormatInt z1)),
      (encode_scalar p fl (VInt k z2) tagK (FormatInt z2)) by done.
    intros [= H]. by apply (inj pretty) in H.
  - rewrite (encode_scalar p fl (VUint k z1) tagK (FormatInt z1)),
      (encode_scalar p fl (VUint k z2) tagK (FormatInt z2)) by done.
    intros [= H]. by apply (inj pretty) in H.
Qed.

Lemma integer_text_is_faithful_witness :
  (flagRO noFlag = false ∧ (-1 ≠ 1)%Z) ∧
  encode pa noFlag (VInt KInt8 (-1)) "n" ≠ encode pa noFlag (VInt KInt8 1) "n".
Proof.
  split; [done|].
  by apply (integer_text_is_faithful pa noFlag "n" (-1)%Z 1%Z).
Defined.





(** X23. A kept field that is not exported and holds a scalar or a
    sequence, behind any pointers, makes the call panic: the value read
    through it is read-only and [Interface], which the scalar encoders and
    [encodeSlice] call first, refuses it. *)
Theorem unexported_field_panics p fl f x tagK :
  fieldTag p f = (tagK, false) →
  IsExported f = false →
  (∃ named s, elimPtr x = VScalar named s) ∨
    kind (elimPtr x) = Slice ∨ kind (elimPtr x) = Array →
  fieldPairs p fl (f, x) = Panicked InterfaceRO ∧
  (∀ fs1 fs2 r1,
     collect (fieldPairs p fl <$> fs1) = Done r1 →
     parse p fl (VStruct (fs1 ++ (f, x) :: fs2)) = Panicked InterfaceRO ∧
     ToMap p fl (VStruct (fs1 ++ (f, x) :: fs2)) = Panicked InterfaceRO).
Proof.
  intros Hf Hex Hx.
  assert (flagRO (fieldFlag fl f) = true) as Hro.
  { rewrite flagRO_fieldFlag, Hex. apply orb_true_r. }
  assert (fieldPairs p fl (f, x) = Panicked InterfaceRO) as Hfp.
  { rewrite (fieldPairs_kept p fl f x tagK); [| |done].
    - destruct Hx as [(named & s & Hs)|Hk].
      + rewrite <- encode_elimPtr, Hs. by apply encode_scalar_ro.
      + rewrite encode_seq_ptr by done.
        fold (encodeSlice p (fieldFlag fl f) (elimPtr x) tagK).
        by apply encodeSlice_ro.
    - destruct Hx as [(named & s & ->)|[-> | ->]]; try discriminate.
      simpl. by destruct s as [|[]|[]|[]|[]|]. }
  split; [done|]. intros fs1 fs2 r1 H1.
  assert (parse p fl (VStruct (fs1 ++ (f, x) :: fs2)) = Panicked InterfaceRO)
    as Hp.
  { rewrite (parse_collect p fl (VStruct _) (fs1 ++ (f, x) :: fs2) eq_refl).
    by rewrite fmap_app, fmap_cons, collect_app, H1; cbn [collect]; rewrite Hfp. }
  split; [done|]. unfold ToMap. by rewrite Hp.
Qed.

Lemma unexported_field_panics_witness :
  let f := field "name" "a" "name" in
  let x := StringPtr "zwf" in
  (fieldTag pa f = ("name", false) ∧ IsExported f = false ∧
   collect (fieldPairs pa noFlag <$> []) = Done []) ∧
  parse pa noFlag (VStruct ([] ++ (f, x) :: [])) = Panicked InterfaceRO.
Proof.
  intros f x. split; [by vm_compute|].
  apply (proj2 (unexported_field_panics pa noFlag f x "name" eq_refl eq_refl
                  (or_introl (ex_intro _ false (ex_intro _ (SString "zwf") eq_refl))))
           [] [] [] eq_refl).
Defined.

(** ** Sequences *)

Lemma collect_imap_scalars p fl (key : nat → string) xs texts :
  flagRO fl = false →
  mapM (λ x, scalarText (elimPtr x)) xs = Some texts →
  collect (imap (λ i x, encode p fl x (key i)) xs)
  = Done (imap (λ i s, mkKV (key i) s) texts).
Proof.
  intros Hfl. revert key texts. induction xs as [|x xs IH]; intros key texts Hm.
  { injection Hm as <-. reflexivity. }
  apply mapM_Some in Hm. inversion Hm as [|? s ? texts' Hs Hm']; subst.
  apply mapM_Some in Hm'. cbn [imap collect].
  rewrite (encode_scalar p fl x (key 0) s Hfl Hs).
  rewrite (imap_ext _ (λ i x, encode p fl x ((key ∘ S) i)) xs) by done.
  rewrite (IH (key ∘ S) texts' Hm'). reflexivity.
Qed.

(** X10. A sequence of scalars of predeclared types, one that may be read,
    yields in the general case one pair per element, in index order: the
    [i]-th under the key [tagK.i], with the text of the element; so as many
    pairs as elements. *)
Theorem sequence_of_scalars p fl v tagK texts :
  flagRO fl = false →
  kind v = Slice ∨ kind v = Array →
  assertBytes v = None →
  assertStrings v = None ∨ joinTag (Split tagK ","%char) = false →
  mapM (λ x, scalarText (elimPtr x)) (seqElems v) = Some texts →
  encode p fl v tagK
    = Done (imap (λ i s, mkKV (tagK +:+ "." +:+ Itoa i) s) texts) ∧
  ∀ kvs, encode p fl v tagK = Done kvs → length kvs = length (seqElems v).
Proof.
  intros Hfl Hk Hb Hs Hm.
  assert (encode p fl v tagK
          = Done (imap (λ i s, mkKV (tagK +:+ "." +:+ Itoa i) s) texts)) as He.
  { rewrite (encode_general p fl v tagK Hfl Hk Hb Hs).
    apply (collect_imap_scalars p (ro fl) (λ i, tagK +:+ "." +:+ Itoa i));
      [by rewrite flagRO_ro|done]. }
  split; [done|]. intros kvs. rewrite He. intros [= <-].
  rewrite length_imap. symmetry. by eapply length_mapM.
Qed.

Lemma sequence_of_scalars_witness :
  let v := VSlice otherSeq (Some [VInt KInt 2; VInt KInt 0; VInt KInt 32]) in
  (flagRO noFlag = false ∧
   (kind v = Slice ∨ kind v = Array) ∧ assertBytes v = None ∧
   (assertStrings v = None ∨ joinTag (Split "e" ","%char) = false) ∧
   mapM (λ x, scalarText (elimPtr x)) (seqElems v) = Some ["2"; "0"; "32"]) ∧
  encode pa noFlag v "e"
    = Done [mkKV "e.0" "2"; mkKV "e.1" "0"; mkKV "e.2" "32"].
Proof.
  intros v.
  split; [split; [done|]; split; [by left|]; split; [done|];
          split; [by left|done]|].
  by apply (sequence_of_scalars pa noFlag v "e" ["2"; "0"; "32"]);
    [ | left | | left |].
Defined.

(** A sequence over a defined scalar type fails at its first element. *)
Example sequence_of_defined_scalars :
  encode pa noFlag (VSlice otherSeq (Some [VScalar true (SInt KInt 2)])) "e"
    = Panicked InterfaceConversion.
Proof. by vm_compute. Qed.

(** X11. An array, and a slice of a defined (named) type, are always
    encoded element by element, whatever their element type and their tag:
    the base64 case and the join case are never theirs.  Read through an
    unexported field they panic in [Interface], like every sequence. *)
Theorem arrays_are_always_indexed p fl t tagK :
  (flagRO fl = false →
   (∀ xs, encode p fl (VArray t xs) tagK =
          collect (imap (λ i x, encode p (ro fl) x (tagK +:+ "." +:+ Itoa i)) xs)) ∧
   (defined t = true →
    ∀ xs, encode p fl (VSlice t xs) tagK =
          collect (imap (λ i x, encode p (ro fl) x (tagK +:+ "." +:+ Itoa i))
                        (sliceElems xs)))) ∧
  (flagRO fl = true →
   ∀ xs, encode p fl (VArray t xs) tagK = Panicked InterfaceRO).
Proof.
  split.
  - intros Hfl. split.
    + intros xs. by apply (encode_general p fl (VArray t xs)); [|right| |left].
    + intros Hd xs. apply (encode_general p fl (VSlice t xs));
        [done|by left| |left]; simpl; by rewrite Hd.
  - intros Hfl xs. rewrite (encode_seq p fl (VArray t xs)) by by right.
    apply encodeSlice_ro; [done|by right].
Qed.

Lemma arrays_are_always_indexed_witness :
  let named := {| defined := true; elem := ElemString |} in
  let xs := Some [VString "a"; VString "b"] in
  (flagRO noFlag = false ∧ defined named = true) ∧
  encode pa noFlag (VSlice named xs) "items,join"
    = Done [mkKV "items,join.0" "a"; mkKV "items,join.1" "b"].
Proof.
  intros named xs. split; [done|].
  rewrite (proj2 (proj1 (arrays_are_always_indexed pa noFlag named "items,join")
                    eq_refl) eq_refl xs).
  by vm_compute.
Defined.

Lemma collect_imap_app p fl (key : nat → string) xs1 xs2 :
  collect (imap (λ i x, encode p fl x (key i)) (xs1 ++ xs2)) =
  (r1 ← collect (imap (λ i x, encode p fl x (key i)) xs1);
   r2 ← collect (imap (λ j x, encode p fl x (key (length xs1 + j))) xs2);
   Done (r1 ++ r2)).
Proof. by rewrite imap_app, collect_app. Qed.

(** X12. A nil pointer among the elements of a sequence yields no pair and
    no failure, and it keeps its index: the elements after it are numbered
    as if it had yielded a pair. *)
Theorem nil_element_keeps_its_index p fl v tagK xs1 x xs2 :
  flagRO fl = false →
  kind v = Slice ∨ kind v = Array →
  seqElems v = xs1 ++ x :: xs2 →
  elimPtr x = VInvalid →
  encode p fl v tagK =
    (r1 ← collect (imap (λ i y, encode p (ro fl) y (tagK +:+ "." +:+ Itoa i)) xs1);
     r2 ← collect (imap (λ j y, encode p (ro fl) y
                                  (tagK +:+ "." +:+ Itoa (length xs1 + 1 + j)))
                        xs2);
     Done (r1 ++ r2)).
Proof.
  intros Hfl Hk Hv Hx.
  assert (x ∈ seqElems v) as Hin.
  { rewrite Hv. apply elem_of_app. right. apply list_elem_of_here. }
  assert (assertBytes v = None) as Hb.
  { destruct (assertBytes v) as [b|] eqn:Hb; [|done].
    destruct (assertBytes_inv _ _ Hb) as (xs & -> & Hm).
    destruct (mapM_elem_of _ _ _ x Hm Hin) as [y Hy].
    destruct x as [|[] [| | | | |]| | | | | |]; discriminate. }
  assert (assertStrings v = None) as Hs.
  { destruct (assertStrings v) as [s|] eqn:Hs; [|done].
    destruct (assertStrings_inv _ _ Hs) as (xs & -> & Hm).
    destruct (mapM_elem_of _ _ _ x Hm Hin) as [y Hy].
    destruct x as [|[] [| | | | |]| | | | | |]; discriminate. }
  rewrite (encode_general p fl v tagK Hfl Hk Hb (or_introl Hs)), Hv.
  rewrite (collect_imap_app p (ro fl) (λ i, tagK +:+ "." +:+ Itoa i)).
  destruct (collect (imap (λ i x0, encode p (ro fl) x0 (tagK +:+ "." +:+ Itoa i)) xs1))
    as [r1|]; [|done].
  cbn [imap collect mbind exec_bind].
  rewrite <- (encode_elimPtr p (ro fl) x), Hx, encode_eq. simpl.
  rewrite (imap_ext _ (λ j y, encode p (ro fl) y
                                (tagK +:+ "." +:+ Itoa (length xs1 + 1 + j)))).
  2:{ intros j y _. simpl.
      by replace (length xs1 + S j) with (length xs1 + 1 + j) by lia. }
  by destruct (collect _).
Qed.

Lemma nil_element_keeps_its_index_witness :
  let xs1 := [VPtr (VString "a")] in
  let xs2 := [VPtr (VString "c")] in
  let v := VSlice otherSeq (Some (xs1 ++ VPtr VInvalid :: xs2)) in
  (flagRO noFlag = false ∧ (kind v = Slice ∨ kind v = Array) ∧
   elimPtr (VPtr VInvalid) = VInvalid) ∧
  encode pa noFlag v "h" = Done [mkKV "h.0" "a"; mkKV "h.2" "c"].
Proof.
  intros xs1 xs2 v. split; [split; [done|]; split; [by left|done]|].
  rewrite (nil_element_keeps_its_index pa noFlag v "h" xs1 (VPtr VInvalid) xs2);
    [by vm_compute|done|by left|done|done].
Defined.

(** ** Maps *)

Lemma crossPairs_nil_r tagK keyPair : crossPairs tagK keyPair [] = [].
Proof.
  unfold crossPairs. induction keyPair as [|key keyPair IH]; [done|].
  rewrite bind_cons, IH. reflexivity.
Qed.

(** X13. A map whose keys and values, as [MapKeys] and [MapIndex] give
    them, are scalars of predeclared types (behind pointers or not), and
    which may be read, yields one pair per entry in iteration order: the
    field's key composed with the text of the map key, and the text of the
    map value. *)
Theorem map_of_scalars p fl es tagK :
  flagRO fl = false →
  Forall (λ e, is_Some (scalarText (elimPtr e.1)) ∧
               is_Some (scalarText (elimPtr e.2))) es →
  encode p fl (VMap es) tagK
    = Done ((λ e, mkKV (compose tagK (textOf e.1)) (textOf e.2)) <$> es).
Proof.
  intros Hfl Hes. rewrite encode_map.
  assert (flagRO (ro fl) = false) as Hro by by rewrite flagRO_ro.
  induction Hes as [|[k e] es [[sk Hk] [se He]] _ IH]; [done|].
  rewrite !fmap_cons. cbn [collect]. rewrite IH, entryPairs_eq.
  simpl in Hk, He.
  rewrite (encode_scalar p (ro fl) k "" sk Hro Hk),
    (encode_scalar p (ro fl) e "" se Hro He).
  unfold textOf. simpl. rewrite Hk, He. reflexivity.
Qed.

Lemma map_of_scalars_witness :
  let es := [(VString "m1", VPtr (VString "v1"));
             (VString "m2", VPtr (VString "v2"))] in
  (flagRO noFlag = false ∧
   Forall (λ e, is_Some (scalarText (elimPtr e.1)) ∧
                is_Some (scalarText (elimPtr e.2))) es) ∧
  encode pa noFlag (VMap es) "i" = Done [mkKV "i.m1" "v1"; mkKV "i.m2" "v2"] ∧
  encode pa noFlag (VMap es) "..." = Done [mkKV "m1" "v1"; mkKV "m2" "v2"].
Proof.
  intros es.
  assert (Forall (λ e, is_Some (scalarText (elimPtr e.1)) ∧
                       is_Some (scalarText (elimPtr e.2))) es) as Hes.
  { repeat (apply List.Forall_cons; [split; eexists; reflexivity|]).
    apply List.Forall_nil. }
  split; [done|]. split.
  - rewrite (map_of_scalars pa noFlag es "i" eq_refl Hes). by vm_compute.
  - rewrite (map_of_scalars pa noFlag es "..." eq_refl Hes). by vm_compute.
Defined.

(** A map keyed by a defined scalar type fails at its first key. *)
Example map_of_defined_scalars :
  encode pa noFlag (VMap [(VScalar true (SString "on"), VString "v")]) "i"
    = Panicked InterfaceConversion.
Proof. by vm_compute. Qed.

(** X14. A map entry whose value is a nil pointer yields no pair: the map
    encodes as it would without the entry, provided the key of the entry
    can be encoded. *)
Theorem map_entry_with_nil_value p fl es1 k e es2 tagK keyPair :
  elimPtr e = VInvalid →
  encode p (ro fl) k "" = Done keyPair →
  entryPairs p fl tagK (k, e) = Done [] ∧
  encode p fl (VMap (es1 ++ (k, e) :: es2)) tagK
    = encode p fl (VMap (es1 ++ es2)) tagK.
Proof.
  intros He Hk.
  assert (entryPairs p fl tagK (k, e) = Done []) as Hep.
  { rewrite entryPairs_eq, Hk, <- (encode_elimPtr p (ro fl) e), He, encode_eq.
    simpl. by rewrite crossPairs_nil_r. }
  split; [done|].
  rewrite !encode_map, !fmap_app, fmap_cons, !collect_app. cbn [collect].
  rewrite Hep. simpl.
  destruct (collect (entryPairs p fl tagK <$> es1)); simpl; [|done].
  by destruct (collect (entryPairs p fl tagK <$> es2)).
Qed.

Lemma map_entry_with_nil_value_witness :
  let es1 := [(VString "m1", VPtr (VString "v1"))] in
  let k := VString "m2" in
  (elimPtr (VPtr VInvalid) = VInvalid ∧
   encode pa (ro noFlag) k "" = Done [mkKV "" "m2"]) ∧
  encode pa noFlag (VMap (es1 ++ (k, VPtr VInvalid) :: [])) "i"
    = encode pa noFlag (VMap (es1 ++ [])) "i" ∧
  encode pa noFlag (VMap (es1 ++ (k, VPtr VInvalid) :: [])) "i"
    = Done [mkKV "i.m1" "v1"].
Proof.
  intros es1 k. split; [by vm_compute|]. split; [|by vm_compute].
  by apply (map_entry_with_nil_value pa noFlag es1 k (VPtr VInvalid) [] "i"
              [mkKV "" "m2"]).
Defined.

(** ** Order of the pairs *)

(** X15. The pairs of a struct come field by field in declaration order:
    a struct parses to the pairs of its first fields followed by the pairs
    of the remaining ones, and the first failure is the failure of the
    whole. *)
Theorem parse_in_field_order p fl fs1 fs2 :
  parse p fl (VStruct (fs1 ++ fs2)) =
  (parse p fl (VStruct fs1) ≫= λ r1 : list KV * option error,
   parse p fl (VStruct fs2) ≫= λ r2 : list KV * option error,
   Done (r1.1 ++ r2.1, None)).
Proof.
  rewrite (parse_collect p fl (VStruct (fs1 ++ fs2)) (fs1 ++ fs2) eq_refl).
  rewrite (parse_collect p fl (VStruct fs1) fs1 eq_refl).
  rewrite (parse_collect p fl (VStruct fs2) fs2 eq_refl).
  rewrite fmap_app, collect_app.
  destruct (collect (fieldPairs p fl <$> fs1)); simpl; [|done].
  by destruct (collect (fieldPairs p fl <$> fs2)).
Qed.

(** ** ToMap again *)

Lemma lastValue_None k kvs : k ∉ K <$> kvs → lastValue k kvs = None.
Proof.
  intros Hk. destruct (lastValue k kvs) as [v|] eqn:Hl; [|done].
  destruct (proj1 (lastValue_is_Some k kvs)) as (kv & Hin & <-); [by eexists|].
  destruct Hk. by apply list_elem_of_fmap_2.
Qed.

Lemma foldl_insert_size (kvs : list KV) :
  (size (foldl (λ m kv, <[K kv := V kv]> m) (∅ : gmap string string) kvs)
    ≤ length kvs)%nat ∧
  (NoDup (K <$> kvs) →
   size (foldl (λ m kv, <[K kv := V kv]> m) (∅ : gmap string string) kvs)
     = length kvs).
Proof.
  induction kvs as [|kv kvs [IH1 IH2]] using rev_ind; [done|].
  rewrite foldl_app, length_app. simpl. rewrite map_size_insert. split.
  - destruct (_ !! K kv); simpl; lia.
  - rewrite fmap_app. intros Hnd. apply NoDup_app in Hnd as (Hnd & Hdis & _).
    rewrite foldl_insert_lookup, lookup_empty, lastValue_None.
    + simpl. rewrite IH2 by done. lia.
    + intros Hin. apply (Hdis _ Hin). simpl. apply list_elem_of_here.
Qed.

Lemma lastValue_NoDup kvs kv :
  NoDup (K <$> kvs) → kv ∈ kvs → lastValue (K kv) kvs = Some (V kv).
Proof.
  induction kvs as [|kv' kvs IH] using rev_ind; intros Hnd Hin.
  { by apply elem_of_nil in Hin. }
  rewrite lastValue_snoc. rewrite fmap_app in Hnd.
  apply NoDup_app in Hnd as (Hnd & Hdis & _).
  apply elem_of_app in Hin as [Hin|Hin].
  - rewrite decide_False; [by apply IH|].
    intros HK. apply (Hdis (K kv)).
    + by apply list_elem_of_fmap_2.
    + rewrite <- HK. simpl. apply list_elem_of_here.
  - apply list_elem_of_singleton in Hin as ->. by rewrite decide_True.
Qed.

(** X16. The map of [ToMap] never has more entries than [parse] has pairs.
    When the keys of the pairs are all different nothing is lost: the map
    has as many entries as there are pairs, and it holds every pair. *)
Theorem ToMap_loses_nothing_on_distinct_keys p fl root kvs :
  parse p fl root = Done (kvs, None) →
  ∃ m : gmap string string,
    ToMap p fl root = Done (Some m, None) ∧
    (size m ≤ length kvs)%nat ∧
    (NoDup (K <$> kvs) →
     size m = length kvs ∧ ∀ kv, kv ∈ kvs → m !! K kv = Some (V kv)).
Proof.
  intros Hp. eexists. split; [unfold ToMap; by rewrite Hp|].
  destruct (foldl_insert_size kvs) as [Hle Heq].
  split; [done|]. intros Hnd. split; [by apply Heq|].
  intros kv Hin. rewrite foldl_insert_lookup, lookup_empty.
  by rewrite (lastValue_NoDup kvs kv Hnd Hin).
Qed.

Lemma ToMap_loses_nothing_on_distinct_keys_witness :
  let kvs := [mkKV "a" "1"; mkKV "b" "BB"] in
  let root := VStruct [(field "A" "a" "a", VInt KInt 1);
                       (field "B" "a" "b", VString "BB")] in
  (parse pa noFlag root = Done (kvs, None) ∧ NoDup (K <$> kvs)) ∧
  ∃ m : gmap string string,
    ToMap pa noFlag root = Done (Some m, None) ∧ size m = 2 ∧
    m !! "a" = Some "1" ∧ m !! "b" = Some "BB".
Proof.
  intros kvs root.
  assert (parse pa noFlag root = Done (kvs, None)) as Hp by (by vm_compute).
  assert (NoDup (K <$> kvs)) as Hnd.
  { simpl. apply NoDup_cons. split; [|apply NoDup_singleton].
    intros Hin. by apply list_elem_of_singleton in Hin. }
  split; [done|].
  destruct (ToMap_loses_nothing_on_distinct_keys pa noFlag root kvs Hp)
    as (m & Hm & _ & Hall).
  destruct (Hall Hnd) as [Hsize Hget].
  exists m. split; [done|]. split; [done|]. split.
  - apply (Hget (mkKV "a" "1")). apply list_elem_of_here.
  - apply (Hget (mkKV "b" "BB")). apply list_elem_of_further, list_elem_of_here.
Defined.

(** ** Keys *)

Lemma string_app_nil_r (s : string) : s +:+ "" = s.
Proof.
  induction s as [|c s IH]; [done|].
  change (String.String c s +:+ "") with (String.String c (s +:+ "")).
  by rewrite IH.
Qed.

Lemma string_app_assoc (s1 s2 s3 : string) :
  (s1 +:+ s2) +:+ s3 = s1 +:+ s2 +:+ s3.
Proof.
  induction s1 as [|c s1 IH]; [done|].
  change ((String.String c s1 +:+ s2) +:+ s3)
    with (String.String c ((s1 +:+ s2) +:+ s3)).
  by rewrite IH.
Qed.

Lemma chars_app (s1 s2 : string) :
  list_ascii_of_string (s1 +:+ s2)
  = list_ascii_of_string s1 ++ list_ascii_of_string s2.
Proof.
  induction s1 as [|c s1 IH]; [done|].
  change (list_ascii_of_string (String.String c s1 +:+ s2))
    with (c :: list_ascii_of_string (s1 +:+ s2)).
  by rewrite IH.
Qed.

Lemma hasPrefix_refl s : hasPrefix s s.
Proof. exists "". by rewrite string_app_nil_r. Qed.

Lemma hasPrefix_app s pre more : hasPrefix s (pre +:+ more) → hasPrefix s pre.
Proof. intros [rest ->]. exists (more +:+ rest). apply string_app_assoc. Qed.

Lemma pretty_N_char_digit x : digit (pretty_N_char x).
Proof.
  unfold pretty_N_char, digit. repeat case_match; vm_compute; lia.
Qed.

Lemma pretty_N_go_digits x s :
  ∃ pre, pretty_N_go x s = pre +:+ s ∧ Forall digit (list_ascii_of_string pre).
Proof.
  revert s. induction (N.lt_wf_0 x) as [x _ IH]; intros s.
  destruct (decide (x = 0)%N) as [->|Hx].
  { exists "". by rewrite pretty_N_go_0. }
  rewrite pretty_N_go_step by lia.
  destruct (IH (x `div` 10)%N) with (s := String.String (pretty_N_char (x `mod` 10)) s)
    as (pre & -> & Hpre); [apply N.div_lt; lia|].
  exists (pre +:+ String.String (pretty_N_char (x `mod` 10)) ""). split.
  - by rewrite string_app_assoc.
  - rewrite chars_app. apply Forall_app. split; [done|].
    apply Forall_singleton, pretty_N_char_digit.
Qed.

Lemma Itoa_digits i :
  Itoa i ≠ "" ∧ Forall digit (list_ascii_of_string (Itoa i)).
Proof.
  unfold Itoa, pretty, pretty_nat, pretty, pretty_N.
  destruct (decide (N.of_nat i = 0)%N) as [|Hi].
  { split; [done|]. apply Forall_singleton. unfold digit. vm_compute. lia. }
  rewrite pretty_N_go_step by lia.
  destruct (pretty_N_go_digits (N.of_nat i `div` 10)
              (String.String (pretty_N_char (N.of_nat i `mod` 10)) ""))
    as (pre & -> & Hpre).
  split.
  - destruct pre; discriminate.
  - rewrite chars_app. apply Forall_app. split; [done|].
    apply Forall_singleton, pretty_N_char_digit.
Qed.

(** The key of an element is never the suppression marker, and has no
    comma unless the key of the sequence has one. *)
Lemma elemKey_not_marker tagK i : tagK +:+ "." +:+ Itoa i ≠ "...".
Proof.
  destruct (Itoa_digits i) as [Hne Hd]. intros Heq.
  apply (f_equal list_ascii_of_string) in Heq.
  rewrite !chars_app in Heq.
  apply (f_equal last) in Heq. rewrite app_assoc, last_app in Heq.
  destruct (last (list_ascii_of_string (Itoa i))) as [c|] eqn:Hl.
  - apply last_Some_elem_of in Hl. rewrite Forall_forall in Hd.
    specialize (Hd c Hl). simpl in Heq. injection Heq as ->.
    unfold digit in Hd. vm_compute in Hd. lia.
  - apply last_None in Hl. destruct (Itoa i); [done|discriminate].
Qed.

Lemma elemKey_commaFree tagK i :
  commaFree tagK → commaFree (tagK +:+ "." +:+ Itoa i).
Proof.
  unfold commaFree. rewrite !chars_app. intros Ht Hin.
  apply elem_of_app in Hin as [Hin|Hin]; [done|].
  apply elem_of_app in Hin as [Hin|Hin].
  { simpl in Hin. by apply list_elem_of_singleton in Hin. }
  destruct (Itoa_digits i) as [_ Hd]. rewrite Forall_forall in Hd.
  specialize (Hd _ Hin). unfold digit in Hd. vm_compute in Hd. lia.
Qed.

Lemma commaFree_no_join tagK :
  commaFree tagK → joinTag (Split tagK ","%char) = false.
Proof. intros Hc. by rewrite (Split_no_sep tagK ","%char Hc). Qed.

Lemma collect_Forall (Q : KV → Prop) rs kvs :
  collect rs = Done kvs →
  (∀ r k', r ∈ rs → r = Done k' → Forall Q k') →
  Forall Q kvs.
Proof.
  revert kvs. induction rs as [|r rs IH]; intros kvs; simpl.
  { intros [= <-] _. constructor. }
  destruct r as [k1|]; simpl; [|discriminate].
  destruct (collect rs) as [rest|]; simpl; [|discriminate].
  intros [= <-] HQ. apply Forall_app. split.
  - apply (HQ (Done k1)); [apply list_elem_of_here|done].
  - apply IH; [done|]. intros r k' Hin. apply HQ. by apply list_elem_of_further.
Qed.

Lemma crossPairs_keys tagK keyPair valPair :
  Forall (λ kv, ∃ s, K kv = compose tagK s) (crossPairs tagK keyPair valPair).
Proof.
  apply Forall_forall. intros kv Hin. unfold crossPairs in Hin.
  apply list_elem_of_bind in Hin as (key & Hin & _).
  apply list_elem_of_bind in Hin as (val & Hin & _).
  apply list_elem_of_singleton in Hin as ->. eauto.
Qed.

Lemma encode_keys_prefixed p v :
  ∀ fl tagK kvs, tagK ≠ "..." → commaFree tagK →
                 encode p fl v tagK = Done kvs →
                 Forall (λ kv, hasPrefix (K kv) tagK) kvs.
Proof.
  assert (∀ tagK s, tagK ≠ "..." → hasPrefix (compose tagK s) tagK) as Hcomp.
  { intros tagK s Hne. unfold compose. rewrite decide_False by done. by eexists. }
  induction v as [|named s|t xs IH|t xs IH|fs IH|es IH|e IH|k]
    using value_ind_nested; intros fl tagK kvs Hne Hc.
  - rewrite encode_eq. simpl. intros [= <-]. constructor.
  - destruct (flagRO fl) eqn:Hfl; [by rewrite encode_scalar_ro|].
    destruct named; [by rewrite encode_defined|].
    rewrite encode_predeclared by done.
    intros [= <-]. repeat constructor. apply hasPrefix_refl.
  - rewrite (encode_seq p fl (VSlice t xs)) by by left.
    destruct (flagRO fl) eqn:Hfl;
      [by rewrite encodeSlice_ro by (try done; by left)|].
    rewrite encodeSlice_rw by (try done; by left).
    destruct (assertBytes _).
    { intros [= <-]. repeat constructor. apply hasPrefix_refl. }
    rewrite (commaFree_no_join tagK Hc).
    assert (encodeIndexed (encode p) fl (VSlice t xs) tagK = Done kvs →
            Forall (λ kv, hasPrefix (K kv) tagK) kvs) as Hidx.
    { rewrite encodeIndexed_collect by by left. intros Hcol.
      apply (collect_Forall _ _ _ Hcol). intros r k' Hin ->.
      apply elem_of_imap_encode in Hin as (i & x & Hx & Hr).
      rewrite Forall_forall in IH. symmetry in Hr.
      eapply Forall_impl;
        [exact (IH x Hx _ _ _ (elemKey_not_marker tagK i)
                  (elemKey_commaFree tagK i Hc) Hr)|].
      intros kv. apply hasPrefix_app. }
    by destruct (assertStrings _).
  - rewrite (encode_seq p fl (VArray t xs)) by by right.
    destruct (flagRO fl) eqn:Hfl;
      [by rewrite encodeSlice_ro by (try done; by right)|].
    rewrite encodeSlice_rw by (try done; by right).
    cbn [assertBytes assertStrings].
    rewrite encodeIndexed_collect by by right. intros Hcol.
    apply (collect_Forall _ _ _ Hcol). intros r k' Hin ->.
    apply elem_of_imap_encode in Hin as (i & x & Hx & Hr).
    rewrite Forall_forall in IH. symmetry in Hr.
    eapply Forall_impl;
      [exact (IH x Hx _ _ _ (elemKey_not_marker tagK i)
                (elemKey_commaFree tagK i Hc) Hr)|].
    intros kv. apply hasPrefix_app.
  - rewrite encode_struct by done.
    destruct (parse p fl (VStruct fs)) as [[r o]|]; simpl; [|discriminate].
    intros [= <-]. apply Forall_fmap, Forall_forall. intros kv _.
    by apply Hcomp.
  - rewrite encode_map. intros Hcol.
    apply (collect_Forall _ _ _ Hcol). intros r k' Hin ->.
    apply list_elem_of_fmap in Hin as ([k e] & Hr & _).
    rewrite entryPairs_eq in Hr. symmetry in Hr.
    apply bind_inv_Done in Hr as (keyPair & _ & Hr).
    apply bind_inv_Done in Hr as (valPair & _ & Hr). injection Hr as <-.
    eapply Forall_impl; [apply crossPairs_keys|].
    intros kv [s ->]. by apply Hcomp.
  - rewrite encode_VPtr. by apply IH.
  - rewrite encode_eq. simpl. by destruct k.
Qed.

(** X17. Under a key without comma that is not the suppression marker,
    every pair a value yields, at any depth, has a key that starts with that
    key: the pairs of a field stay under the name of the field. *)
Theorem keys_start_with_the_field_key p fl f v tagK :
  fieldTag p f = (tagK, false) →
  tagK ≠ "..." → commaFree tagK →
  (∀ fl' kvs, encode p fl' v tagK = Done kvs →
              Forall (λ kv, hasPrefix (K kv) tagK) kvs) ∧
  (∀ kvs, parse p fl (VStruct [(f, v)]) = Done (kvs, None) →
          Forall (λ kv, hasPrefix (K kv) tagK) kvs).
Proof.
  intros Hf Hne Hc. split; [intros fl' kvs; by apply encode_keys_prefixed|].
  intros kvs. rewrite parse_single, fieldPairs_eq, Hf. simpl.
  destruct (decide _).
  { intros [= <-]. constructor. }
  rewrite encode_elimPtr.
  destruct (encode p (fieldFlag fl f) v tagK) as [r|] eqn:He; simpl;
    [|discriminate].
  intros [= <-]. by apply (encode_keys_prefixed p v (fieldFlag fl f) tagK).
Qed.

Lemma keys_start_with_the_field_key_witness :
  let f := field "H" "a" "h" in
  let v := VSlice otherSeq (Some [VPtr (Info "2"); VPtr (Info "3")]) in
  (fieldTag pa f = ("h", false) ∧ "h" ≠ "..." ∧ commaFree "h") ∧
  parse pa noFlag (VStruct [(f, v)])
    = Done ([mkKV "h.0.cpu" "2"; mkKV "h.1.cpu" "3"], None) ∧
  Forall (λ kv, hasPrefix (K kv) "h") [mkKV "h.0.cpu" "2"; mkKV "h.1.cpu" "3"].
Proof.
  intros f v.
  assert (commaFree "h") as Hc.
  { unfold commaFree. simpl. by intros ?%list_elem_of_singleton. }
  split; [done|]. split; [by vm_compute|].
  apply (proj2 (keys_start_with_the_field_key pa noFlag f v "h" eq_refl
                  ltac:(done) Hc)).
  by vm_compute.
Defined.

(** ** Sequences of structs *)

Lemma collect_imap_structs p fl (key : nat → string) xs kvss :
  Forall2 (λ x kvs, kind (elimPtr x) = Struct ∧ parse p fl x = Done (kvs, None))
          xs kvss →
  collect (imap (λ i x, encode p fl x (key i)) xs)
  = Done (concat (imap (λ i kvs, composeKV (key i) <$> kvs) kvss)).
Proof.
  intros H. revert key.
  induction H as [|x kvs xs kvss [Hk Hp] _ IH]; intros key; [done|].
  cbn [imap collect concat].
  rewrite (encode_struct p fl x (key 0) Hk), Hp. simpl.
  rewrite (imap_ext _ (λ i x, encode p fl x ((key ∘ S) i)) xs) by done.
  rewrite (IH (key ∘ S)). reflexivity.
Qed.

(** X18. A sequence of structs yields, element after element, the pairs of
    each struct with [tagK.i.] put in front of their keys, [i] being the
    index of the struct. *)
Theorem sequence_of_structs p fl v tagK kvss :
  flagRO fl = false →
  kind v = Slice ∨ kind v = Array →
  assertBytes v = None →
  assertStrings v = None ∨ joinTag (Split tagK ","%char) = false →
  Forall2 (λ x kvs, kind (elimPtr x) = Struct ∧
                    parse p (ro fl) x = Done (kvs, None))
          (seqElems v) kvss →
  encode p fl v tagK
    = Done (concat (imap (λ i kvs,
              (λ kv, mkKV ((tagK +:+ "." +:+ Itoa i) +:+ "." +:+ K kv) (V kv))
                <$> kvs) kvss)).
Proof.
  intros Hfl Hk Hb Hs Hall.
  rewrite (encode_general p fl v tagK Hfl Hk Hb Hs).
  rewrite (collect_imap_structs p (ro fl) (λ i, tagK +:+ "." +:+ Itoa i) _ kvss Hall).
  f_equal. f_equal. apply imap_ext. intros i kvs _.
  apply list_fmap_ext. intros _ kv _. unfold composeKV, compose.
  by rewrite decide_False by apply elemKey_not_marker.
Qed.

Lemma sequence_of_structs_witness :
  let v := VSlice otherSeq (Some [VPtr (Info "2"); VPtr (Info "3")]) in
  let kvss := [[mkKV "cpu" "2"]; [mkKV "cpu" "3"]] in
  (flagRO noFlag = false ∧
   (kind v = Slice ∨ kind v = Array) ∧ assertBytes v = None ∧
   (assertStrings v = None ∨ joinTag (Split "h" ","%char) = false) ∧
   Forall2 (λ x kvs, kind (elimPtr x) = Struct ∧
                     parse pa (ro noFlag) x = Done (kvs, None))
           (seqElems v) kvss) ∧
  encode pa noFlag v "h" = Done [mkKV "h.0.cpu" "2"; mkKV "h.1.cpu" "3"].
Proof.
  intros v kvss.
  assert (Forall2 (λ x kvs, kind (elimPtr x) = Struct ∧
                            parse pa (ro noFlag) x = Done (kvs, None))
                  (seqElems v) kvss)
    as Hall.
  { simpl. repeat (apply List.Forall2_cons; [split; by vm_compute|]).
    apply List.Forall2_nil. }
  split; [split; [done|]; split; [by left|]; split; [done|];
          split; [by left|done]|].
  rewrite (sequence_of_structs pa noFlag v "h" kvss);
    [by vm_compute|done|by left|done|by left|done].
Defined.

(** ** Joined strings *)

Lemma Split_Join strs :
  strs ≠ [] → Forall commaFree strs → Split (Join strs ",") ","%char = strs.
Proof.
  intros Hne Hall. induction Hall as [|x strs Hx Hall IH]; [done|].
  destruct strs as [|y strs].
  { simpl. by apply Split_no_sep. }
  change (Join (x :: y :: strs) ",")
    with (x +:+ String.String ","%char (Join (y :: strs) ",")).
  rewrite (Split_sep x _ ","%char Hx). f_equal. by apply IH.
Qed.

(** X19. The value of a joined [[]string] field splits back at the commas
    into its elements, when there is at least one element and no element
    has a comma; two such fields with the same pair have the same
    elements. *)
Theorem joined_value_splits_back p fl v tagK strList :
  flagRO fl = false →
  assertStrings (elimPtr v) = Some strList →
  Split tagK ","%char !! 1 = Some "join" →
  strList ≠ [] → Forall commaFree strList →
  (∃ kv, encode p fl v tagK = Done [kv] ∧ Split (V kv) ","%char = strList) ∧
  (∀ v' strList',
     assertStrings (elimPtr v') = Some strList' →
     strList' ≠ [] → Forall commaFree strList' →
     encode p fl v' tagK = encode p fl v tagK → strList' = strList).
Proof.
  intros Hfl Hs Hj Hne Hc.
  split.
  - eexists. split; [by apply encode_joined|]. simpl. by apply Split_Join.
  - intros v' strList' Hs' Hne' Hc'.
    rewrite (encode_joined p fl v' tagK strList' Hfl Hs' Hj),
      (encode_joined p fl v tagK strList Hfl Hs Hj).
    intros [= Heq]. rewrite <- (Split_Join strList' Hne' Hc'), Heq.
    by apply Split_Join.
Qed.

Lemma joined_value_splits_back_witness :
  let v := VSlice stringSeq (Some [VString "a"; VString "b"; VString "c"]) in
  (flagRO noFlag = false ∧
   assertStrings (elimPtr v) = Some ["a"; "b"; "c"] ∧
   Split "items,join" ","%char !! 1 = Some "join" ∧
   Forall commaFree ["a"; "b"; "c"]) ∧
  ∃ kv, encode pa noFlag v "items,join" = Done [kv] ∧
        Split (V kv) ","%char = ["a"; "b"; "c"].
Proof.
  intros v.
  assert (Forall commaFree ["a"; "b"; "c"]) as Hc.
  { repeat (apply List.Forall_cons;
            [unfold commaFree; simpl; by intros ?%list_elem_of_singleton|]).
    apply List.Forall_nil. }
  split; [done|].
  by apply (joined_value_splits_back pa noFlag v "items,join" ["a"; "b"; "c"]).
Defined.

(** Without the condition the joined value is ambiguous. *)
Example joined_value_with_commas :
  let one := VSlice stringSeq (Some [VString "a,b"]) in
  let two := VSlice stringSeq (Some [VString "a"; VString "b"]) in
  encode pa noFlag one "items,join" = encode pa noFlag two "items,join" ∧
  encode pa noFlag (VSlice stringSeq None) "items,join"
    = encode pa noFlag (VSlice stringSeq (Some [VString ""])) "items,join".
Proof. by vm_compute. Qed.

(** ** Base64 *)

Lemma base64_length_step (n : nat) : (S (S (S n)) + 2) / 3 = S ((n + 2) / 3).
Proof.
  replace (S (S (S n)) + 2) with (n + 2 + 1 * 3) by lia.
  rewrite Nat.div_add by lia. lia.
Qed.

Lemma EncodeToString_length src :
  String.length (base64.EncodeToString src) = 4 * ((length src + 2) / 3).
Proof.
  enough (String.length (base64.EncodeToString src)
            = 4 * ((length src + 2) / 3) ∧
          (∀ a, String.length (base64.EncodeToString (a :: src))
                = 4 * ((length (a :: src) + 2) / 3)) ∧
          (∀ a b, String.length (base64.EncodeToString (a :: b :: src))
                  = 4 * ((length (a :: b :: src) + 2) / 3))) as [H _] by done.
  induction src as [|c src (IH0 & IH1 & IH2)].
  { split; [done|]. split; intros; reflexivity. }
  split; [apply IH1|]. split; [intros a; apply IH2|].
  intros a b. cbn [base64.EncodeToString String.length length].
  rewrite IH0, base64_length_step. lia.
Qed.

(** X20. The value of a [[]byte] field has four characters for every three
    bytes begun: its length is [4 * ceil(n / 3)] for [n] bytes, so a
    multiple of four, and zero only for no bytes. *)
Theorem byte_slice_value_length p fl v tagK b :
  flagRO fl = false →
  assertBytes (elimPtr v) = Some b →
  ∃ text, encode p fl v tagK = Done [mkKV tagK text] ∧
          String.length text = 4 * ((length b + 2) / 3) ∧
          (text = "" ↔ b = []).
Proof.
  intros Hfl Hb. exists (base64.EncodeToString b).
  split; [|split].
  - by apply encode_bytes.
  - apply EncodeToString_length.
  - split.
    + intros Ht. apply (f_equal String.length) in Ht.
      rewrite EncodeToString_length in Ht. cbn [String.length] in Ht.
      destruct b as [|a b]; [done|]. exfalso.
      assert (3 ≤ length (a :: b) + 2)%nat as Hlen by (simpl; lia).
      pose proof (Nat.Div0.div_le_mono _ _ 3 Hlen) as Hdiv.
      change (3 / 3) with 1 in Hdiv. lia.
    + by intros ->.
Qed.

Lemma byte_slice_value_length_witness :
  let v := VSlice byteSeq (Some ((λ z, VUint KUint8 z) <$> [71; 111; 108; 97]%Z)) in
  (flagRO noFlag = false ∧
   assertBytes (elimPtr v) = Some [71; 111; 108; 97]%Z) ∧
  ∃ text, encode pa noFlag v "j" = Done [mkKV "j" text] ∧ String.length text = 8.
Proof.
  intros v. split; [done|].
  destruct (byte_slice_value_length pa noFlag v "j" [71; 111; 108; 97]%Z
              eq_refl eq_refl)
    as (text & He & Hl & _).
  exists text. split; [done|]. by rewrite Hl.
Defined.

(** ** The suppression marker and embedded structs *)

Lemma fieldFlag_sticky fl fl' f :
  flagStickyRO fl = flagStickyRO fl' → fieldFlag fl f = fieldFlag fl' f.
Proof. unfold fieldFlag. by intros ->. Qed.

(** The fields of a struct see of its flag the sticky mark only. *)
Lemma parse_sticky p fl fl' v :
  flagStickyRO fl = flagStickyRO fl' → parse p fl v = parse p fl' v.
Proof.
  intros Hfl. destruct (decide (kind (elimPtr v) = Struct)) as [Hk|Hk].
  - destruct (kind_Struct_inv _ Hk) as [fs Hv].
    rewrite (parse_collect p fl v fs Hv), (parse_collect p fl' v fs Hv).
    do 2 f_equal. apply list_fmap_ext. intros _ [g x] _.
    by rewrite !fieldPairs_eq, (fieldFlag_sticky fl fl' g Hfl).
  - by rewrite !parse_not_struct.
Qed.

Lemma fieldFlag_keeps_sticky fl f :
  IsExported f = true ∨ Anonymous f = true →
  flagStickyRO (fieldFlag fl f) = flagStickyRO fl.
Proof.
  unfold fieldFlag. intros [-> | ->]; [done|]. by destruct (IsExported f).
Qed.



(** A named field that is not exported is not inlined so: its inner
    fields are read-only, and their encoders panic in [Interface], where
    the same fields at the level of the outer struct encode. *)
Example unexported_struct_is_not_inlined :
  let inner := [(field "AK" "zwf" "ak", StringPtr "xxx")] in
  let f := field "auth" "zwf" "..." in
  let p := {| tag := "zwf"; ignoreFlag := "-" |} in
  parse p noFlag (VStruct [(f, VStruct inner)]) = Panicked InterfaceRO ∧
  parse p noFlag (VStruct inner) = Done ([mkKV "ak" "xxx"], None).
Proof. by vm_compute. Qed.

(** X24. An embedded struct whose type name is not exported is read like
    an exported field: the mark it gets is the one [Field] does not hand on
    to the inner fields, so the inner struct parses as it does under an
    exported field with the same tag, and its exported fields are
    encoded. *)
Theorem embedded_unexported_struct_is_read p fl f g x :
  Anonymous f = true → IsExported g = true →
  fieldTag p f = fieldTag p g →
  kind (elimPtr x) = Struct →
  fieldPairs p fl (f, x) = fieldPairs p fl (g, x) ∧
  (∀ fs1 fs2, parse p fl (VStruct (fs1 ++ (f, x) :: fs2))
              = parse p fl (VStruct (fs1 ++ (g, x) :: fs2))).
Proof.
  intros Hf Hg Htag Hk.
  assert (fieldPairs p fl (f, x) = fieldPairs p fl (g, x)) as Hfp.
  { rewrite !fieldPairs_eq, Htag.
    destruct (decide _); [done|]. destruct (fieldTag p g).2; [done|].
    rewrite !encode_elimPtr, !encode_struct by done.
    rewrite (parse_sticky p (fieldFlag fl f) fl x)
      by (apply fieldFlag_keeps_sticky; by right).
    by rewrite (parse_sticky p (fieldFlag fl g) fl x)
      by (apply fieldFlag_keeps_sticky; by left). }
  split; [done|]. intros fs1 fs2.
  rewrite (parse_collect p fl (VStruct (fs1 ++ (f, x) :: fs2)) _ eq_refl).
  rewrite (parse_collect p fl (VStruct (fs1 ++ (g, x) :: fs2)) _ eq_refl).
  by rewrite !fmap_app, !fmap_cons, Hfp.
Qed.

Lemma embedded_unexported_struct_is_read_witness :
  let f := {| Name := "auth"; PkgPath := "formparser";
              Tag := [("zwf", "auth")]; Anonymous := true |} in
  let g := field "Auth" "zwf" "auth" in
  let x := VStruct [(field "AK" "zwf" "ak", StringPtr "xxx")] in
  let p := {| tag := "zwf"; ignoreFlag := "-" |} in
  (Anonymous f = true ∧ IsExported f = false ∧ IsExported g = true ∧
   fieldTag p f = fieldTag p g ∧ kind (elimPtr x) = Struct) ∧
  fieldPairs p noFlag (f, x) = fieldPairs p noFlag (g, x) ∧
  parse p noFlag (VStruct [(f, x)]) = Done ([mkKV "auth.ak" "xxx"], None).
Proof.
  intros f g x p. split; [done|]. split; [|by vm_compute].
  by apply (embedded_unexported_struct_is_read p noFlag f g x).
Defined.
